(** * The metadata refresh worker of [process-queue-by-slug.ts]

    A shallow embedding of the BullMQ worker callback of
    [packages/indexer/src/jobs/metadata-index/process-queue-by-slug.ts]
    and of the two helpers it calls, followed by the properties of the
    scheduler that can be stated over it.

    The callback pops a batch of pending refresh requests, starts one
    [processSlug] task per request and waits for all of them with
    [Promise.all].  The tasks share three closure variables ([retry],
    [rateLimitExpiredIn], [metadata]) and interleave at their [await]s, so
    an invocation is modelled as a state machine that is driven by a
    schedule: the list of task indices in the order in which their pending
    promises resolve.  Every call to a collaborator (backlog, provider,
    downstream queues, lock) is recorded in a trace together with the task
    that made it.  The provider call is the only one that is taken to
    fail: the backlog, the queues and the lock always answer. *)

From Stdlib Require Import ZArith Lia String List Bool.
From stdpp Require Import base tactics option list.
Import ListNotations.

Local Open Scope string_scope.
Local Open Scope list_scope.
Local Open Scope Z_scope.

(** ** Data *)

(** [RefreshTokenBySlug] of [@/models/pending-refresh-tokens-by-slug]: the
    fields the worker reads. [continuation] is optional. *)
Record RefreshTokenBySlug := mkRefreshTokenBySlug {
  slug : string;
  contract : string;
  collection : string;
  continuation : option string
}.

(** [error.response] of a rejected provider call: the HTTP status and
    [data.expires_in], the only two fields the worker reads as values
    (numbers of the provider are taken to be integers). *)
Record Response := mkResponse {
  status : Z;
  expires_in : Z
}.

(** What [MetadataApi.getTokensMetadataBySlug] settles with: a page of
    metadata with an optional continuation, or an error whose [response]
    may be absent (a network error carries none). *)
Inductive FetchResult (MetadataItem : Type) :=
| Returned (metadata : list MetadataItem) (continuation : option string)
| Threw (response : option Response).
Arguments Returned {MetadataItem} metadata continuation.
Arguments Threw {MetadataItem} response.

(** The calls the worker makes to its collaborators. *)
Inductive Event (MetadataItem : Type) :=
| PendingGet (count : Z)
    (* pendingRefreshTokensBySlug.get(countTotal) *)
| GetTokensMetadataBySlug (contract slug method : string) (continuation : option string)
    (* MetadataApi.getTokensMetadataBySlug(contract, slug, method, continuation) *)
| GetSingleToken (collection : string)
    (* Tokens.getSingleToken(collection) *)
| FetchQueueAdd (kind method collection : string) (prioritized : bool)
    (* metadataIndexFetch.addToQueue([{kind, data: {method, collection}}], prioritized) *)
| CollectionUpdatesAdd (contract tokenId method : string) (delay : Z)
    (* collectionUpdatesMetadata.addToQueue(contract, tokenId, method, delay) *)
| PendingAdd (request : RefreshTokenBySlug) (prioritized : bool)
    (* pendingRefreshTokensBySlug.add(request, prioritized) *)
| WriteQueueAdd (metadata : list MetadataItem)
    (* metadataIndexWrite.addToQueue(metadata) *)
| ExtendLock (name : string) (seconds : Z)
    (* extendLock(name, seconds) *)
| ReleaseLock (name : string)
    (* releaseLock(name) *)
| AddToQueue (delay : Z).
    (* addToQueue(delay), delay in milliseconds *)
Arguments PendingGet {MetadataItem} count.
Arguments GetTokensMetadataBySlug {MetadataItem} contract slug method continuation.
Arguments GetSingleToken {MetadataItem} collection.
Arguments FetchQueueAdd {MetadataItem} kind method collection prioritized.
Arguments CollectionUpdatesAdd {MetadataItem} contract tokenId method delay.
Arguments PendingAdd {MetadataItem} request prioritized.
Arguments WriteQueueAdd {MetadataItem} metadata.
Arguments ExtendLock {MetadataItem} name seconds.
Arguments ReleaseLock {MetadataItem} name.
Arguments AddToQueue {MetadataItem} delay.

(** Who made a call: the body of the worker callback, or the [processSlug]
    task started for the [i]-th popped request. *)
Inductive Caller :=
| Body
| Slug (i : nat).

#[global] Instance Caller_eq_dec : EqDecision Caller.
Proof. solve_decision. Defined.

(** Where a [processSlug] task is suspended. *)
Inductive Pc :=
| AwaitFetch              (* line 93: await getTokensMetadataBySlug *)
| AwaitSingleToken        (* line 45: await Tokens.getSingleToken *)
| AwaitRefreshAndUpdate   (* line 46: await Promise.all([fetch queue, collection updates]) *)
| AwaitAddContinuation    (* line 109: await pendingRefreshTokensBySlug.add(continuation) *)
| AwaitAddOriginal        (* line 129: await pendingRefreshTokensBySlug.add(original) *)
| AwaitFetchQueue         (* line 135: await metadataIndexFetch.addToQueue *)
| Fulfilled               (* the task returned *)
| RejectedTypeError.      (* the catch block itself threw *)

#[global] Instance Pc_eq_dec : EqDecision Pc.
Proof. solve_decision. Defined.

(** The state of the promise returned by the worker callback. *)
Inductive Status :=
| AwaitAll    (* line 151: suspended on Promise.all *)
| Completed   (* the callback returned *)
| Failed.     (* Promise.all rejected, the callback threw *)

#[global] Instance Status_eq_dec : EqDecision Status.
Proof. solve_decision. Defined.

(** The closure variables shared by the tasks of one invocation. *)
Record Closure (MetadataItem : Type) := mkClosure {
  retry : bool;
  rateLimitExpiredIn : Z;
  metadata : list MetadataItem
}.
Arguments mkClosure {MetadataItem} retry rateLimitExpiredIn metadata.
Arguments retry {MetadataItem} c.
Arguments rateLimitExpiredIn {MetadataItem} c.
Arguments metadata {MetadataItem} c.

(** One invocation of the worker callback. *)
Record Invocation (MetadataItem : Type) := mkInvocation {
  vars : Closure MetadataItem;
  pcs : list Pc;
  trace : list (Caller * Event MetadataItem);
  state : Status
}.
Arguments mkInvocation {MetadataItem} vars pcs trace state.
Arguments vars {MetadataItem} i.
Arguments pcs {MetadataItem} i.
Arguments trace {MetadataItem} i.
Arguments state {MetadataItem} i.

(** ** Constants and small helpers *)

Definition QUEUE_NAME : string := "metadata-index-process-queue-by-slug".

(** [getLockName]: [`${QUEUE_NAME}:${method}`]. *)
Definition getLockName (method : string) : string :=
  (QUEUE_NAME ++ ":" ++ method)%string.

(** [const method = "opensea"] and [const count = 1] of the callback. *)
Definition method : string := "opensea".
Definition count : Z := 1.

(** The contract address [processSlug] compares against on line 88. *)
Definition skippedContract : string := "0x0e3a2a1f2146d86a604adc220b4967a898d7fe07".

Definition isSkipped (r : RefreshTokenBySlug) : bool :=
  String.eqb (contract r) skippedContract.

(** JavaScript truthiness of [results.continuation]: [undefined] and the
    empty string are falsy. *)
Definition truthy (c : option string) : bool :=
  match c with
  | Some s => negb (String.eqb s "")
  | None => false
  end.

(** JavaScript truthiness of a number. *)
Definition truthyNumber (n : Z) : bool := negb (n =? 0).

(** The calls of one caller, in order. *)
Fixpoint calls {E : Type} (c : Caller) (t : list (Caller * E)) : list E :=
  match t with
  | [] => []
  | (c', e) :: t' => if decide (c' = c) then e :: calls c t' else calls c t'
  end.

Definition by_caller {E : Type} (c : Caller) (es : list E) : list (Caller * E) :=
  map (fun e => (c, e)) es.

Definition isFulfilled (pc : Pc) : bool :=
  match pc with Fulfilled => true | _ => false end.

Definition isRejected (pc : Pc) : bool :=
  match pc with RejectedTypeError => true | _ => false end.

Definition isSettled (pc : Pc) : bool := isFulfilled pc || isRejected pc.

(** The lock and self-enqueue calls among a list of calls. *)
Definition isLockCall {M : Type} (e : Event M) : bool :=
  match e with
  | ExtendLock _ _ | ReleaseLock _ | AddToQueue _ => true
  | _ => false
  end.

Definition isPendingAdd {M : Type} (e : Event M) : bool :=
  match e with PendingAdd _ _ => true | _ => false end.

Definition isFetch {M : Type} (e : Event M) : bool :=
  match e with GetTokensMetadataBySlug _ _ _ _ => true | _ => false end.

(** Calls to the three downstream queues. *)
Definition isDispatch {M : Type} (e : Event M) : bool :=
  match e with
  | FetchQueueAdd _ _ _ _ | CollectionUpdatesAdd _ _ _ _ | WriteQueueAdd _ => true
  | _ => false
  end.

(** ** The worker *)

Section Worker.
Context {MetadataItem : Type}.

(** [config.maxParallelTokenCollectionSlugRefreshJobs]. *)
Variable maxParallelTokenCollectionSlugRefreshJobs : Z.

(** [Tokens.getSingleToken], of [@/models/tokens]: the id of one token of
    a collection. *)
Variable getSingleToken : string -> string.

#[local] Abbreviation FetchResult := (FetchResult MetadataItem).
#[local] Abbreviation Event := (Event MetadataItem).
#[local] Abbreviation Closure := (Closure MetadataItem).
#[local] Abbreviation Invocation := (Invocation MetadataItem).

(** [const countTotal = config.maxParallelTokenCollectionSlugRefreshJobs * count] *)
Definition countTotal : Z := maxParallelTokenCollectionSlugRefreshJobs * count.

(** [processSlug], lines 88-98: the part that runs when the task is
    started, up to its first [await]. *)
Definition processSlug (r : RefreshTokenBySlug) : Pc * list Event :=
  if isSkipped r then (Fulfilled, [])
  else (AwaitFetch,
        [GetTokensMetadataBySlug (contract r) (slug r) method (continuation r)]).

(** [processSlug], lines 99-148, and
    [addToTokenRefreshQueueAndUpdateCollectionMetadata], lines 41-60: what
    the task does when the promise it is suspended on resolves, up to its
    next [await]. [res] is what the provider call of this task settles
    with. Calls to the logger are left out, except that line 133 reads
    [error.response.data], which throws when the error has no response. *)
Definition resume (r : RefreshTokenBySlug) (res : FetchResult) (pc : Pc)
    (v : Closure) : Pc * Closure * list Event :=
  match pc with
  | AwaitFetch =>
      match res with
      | Returned md cont =>
          if (length md =? 0)%nat then
            (AwaitSingleToken, v, [GetSingleToken (collection r)])
          else if truthy cont then
            (AwaitAddContinuation,
             mkClosure true (rateLimitExpiredIn v) (metadata v),
             [PendingAdd
                {| slug := slug r;
                   contract := contract r;
                   collection := collection r;
                   continuation := cont |}
                true])
          else
            (Fulfilled,
             mkClosure (retry v) (rateLimitExpiredIn v) (metadata v ++ md),
             [])
      | Threw (Some resp) =>
          if status resp =? 429 then
            (AwaitAddOriginal,
             mkClosure (retry v)
               (Z.max (Z.max (rateLimitExpiredIn v) (expires_in resp)) 5)
               (metadata v),
             [PendingAdd r true])
          else
            (AwaitFetchQueue, v,
             [FetchQueueAdd "full-collection" method (contract r) true])
      | Threw None =>
          (* error.response?.status is undefined, so the else branch is
             taken, and line 133 reads error.response.data *)
          (RejectedTypeError, v, [])
      end
  | AwaitSingleToken =>
      (AwaitRefreshAndUpdate, v,
       [FetchQueueAdd "full-collection" method (collection r) true;
        CollectionUpdatesAdd (contract r) (getSingleToken (collection r)) method 0])
  | AwaitRefreshAndUpdate => (Fulfilled, v, [])
  | AwaitAddContinuation =>
      match res with
      | Returned md _ =>
          (Fulfilled,
           mkClosure (retry v) (rateLimitExpiredIn v) (metadata v ++ md),
           [])
      | Threw _ => (Fulfilled, v, [])
      end
  | AwaitAddOriginal => (Fulfilled, v, [])
  | AwaitFetchQueue => (Fulfilled, v, [])
  | Fulfilled => (Fulfilled, v, [])
  | RejectedTypeError => (RejectedTypeError, v, [])
  end.

(** Lines 166-179, run once [Promise.all] has resolved: hand the
    aggregate to the write queue, then either extend the lock and enqueue
    the next run, or release the lock. [extended] is what [extendLock]
    answers. *)
Definition epilogue (popped : list RefreshTokenBySlug) (extended : bool)
    (v : Closure) : list Event :=
  WriteQueueAdd (map (fun m => m) (metadata v)) ::
  (if truthyNumber (rateLimitExpiredIn v)
      || (Z.of_nat (length popped) =? countTotal)
      || retry v
   then
     ExtendLock (getLockName method) (60 * 5 + rateLimitExpiredIn v) ::
     (if extended then [AddToQueue (rateLimitExpiredIn v * 1000)] else [])
   else
     [ReleaseLock (getLockName method)]).

(** [Promise.all] on line 151: it rejects as soon as one task has
    rejected, and the callback throws; it resolves once every task is
    fulfilled, and the callback runs to its end. *)
Definition settle (popped : list RefreshTokenBySlug) (extended : bool)
    (s : Invocation) : Invocation :=
  match state s with
  | AwaitAll =>
      if existsb isRejected (pcs s) then
        mkInvocation (vars s) (pcs s) (trace s) Failed
      else if forallb isFulfilled (pcs s) then
        mkInvocation (vars s) (pcs s)
          (trace s ++ by_caller Body (epilogue popped extended (vars s)))
          Completed
      else s
  | _ => s
  end.

(** The promise task [i] is suspended on resolves. Tasks keep running
    after the callback has failed: a promise is not cancelled. *)
Definition step (popped : list RefreshTokenBySlug) (fetch : nat -> FetchResult)
    (extended : bool) (s : Invocation) (i : nat) : Invocation :=
  match popped !! i, pcs s !! i with
  | Some r, Some pc =>
      let '(pc', v', es) := resume r (fetch i) pc (vars s) in
      settle popped extended
        (mkInvocation v' (<[i := pc']> (pcs s))
           (trace s ++ by_caller (Slug i) es) (state s))
  | _, _ => s
  end.

(** Lines 151-155: [refreshTokensBySlug.map(processSlug)] starts the tasks
    in order; each runs up to its first [await]. *)
Fixpoint launch (i : nat) (rs : list RefreshTokenBySlug)
    : list Pc * list (Caller * Event) :=
  match rs with
  | [] => ([], [])
  | r :: rs' =>
      let '(pc, es) := processSlug r in
      let '(pcs', t') := launch (S i) rs' in
      (pc :: pcs', by_caller (Slug i) es ++ t')
  end.

(** The invocation once the batch is popped and the tasks are started,
    as [Promise.all] is first awaited. *)
Definition launched (popped : list RefreshTokenBySlug) : Invocation :=
  let '(pcs0, t0) := launch 0 popped in
  mkInvocation (mkClosure false 0 []) pcs0
    ((Body, PendingGet countTotal) :: t0) AwaitAll.

(** The worker callback, lines 67-180. [popped] is what the backlog
    returns, [fetch i] what the provider call of task [i] settles with,
    [extended] the answer of [extendLock], and [schedule] the order in
    which the promises the tasks wait on resolve. *)
Definition Worker (popped : list RefreshTokenBySlug) (fetch : nat -> FetchResult)
    (extended : bool) (schedule : list nat) : Invocation :=
  match popped with
  | [] =>
      mkInvocation (mkClosure false 0 []) []
        (by_caller Body [PendingGet countTotal; ReleaseLock (getLockName method)])
        Completed
  | _ :: _ =>
      fold_left (step popped fetch extended) schedule
        (settle popped extended (launched popped))
  end.

End Worker.

(** ** Reachability *)

Section Reachability.
Context {MetadataItem : Type}.
Variable maxParallelTokenCollectionSlugRefreshJobs : Z.
Variable getSingleToken : string -> string.

#[local] Abbreviation FetchResult := (FetchResult MetadataItem).
#[local] Abbreviation Event := (Event MetadataItem).
#[local] Abbreviation Invocation := (Invocation MetadataItem).

(** The control state a task goes to when it is resumed: [resume] does not
    look at the closure variables to decide it. *)
Definition next (r : RefreshTokenBySlug) (res : FetchResult) (pc : Pc) : Pc :=
  fst (fst (resume getSingleToken r res pc (mkClosure false 0 []))).

(** The calls a task makes when it is resumed. *)
Definition emits (r : RefreshTokenBySlug) (res : FetchResult) (pc : Pc) : list Event :=
  snd (resume getSingleToken r res pc (mkClosure false 0 [])).

(** [reach r res pc es]: a task started for [r], whose provider call
    settles with [res], can be suspended at [pc] having made the calls
    [es]. *)
Inductive reach (r : RefreshTokenBySlug) (res : FetchResult)
    : Pc -> list Event -> Prop :=
| reach_launch :
    reach r res (fst (processSlug (MetadataItem := MetadataItem) r))
      (snd (processSlug r))
| reach_resume pc es :
    reach r res pc es ->
    reach r res (next r res pc) (es ++ emits r res pc).

(** The states an invocation on a non-empty batch goes through. *)
Inductive reachable (popped : list RefreshTokenBySlug) (fetch : nat -> FetchResult)
    (extended : bool) : Invocation -> Prop :=
| reachable_launch :
    reachable popped fetch extended
      (settle maxParallelTokenCollectionSlugRefreshJobs popped extended
         (launched maxParallelTokenCollectionSlugRefreshJobs popped))
| reachable_step s i :
    reachable popped fetch extended s ->
    reachable popped fetch extended
      (step maxParallelTokenCollectionSlugRefreshJobs getSingleToken
         popped fetch extended s i).

(** How many more times a task can be resumed before it settles. *)
Definition fuel (pc : Pc) : nat :=
  match pc with
  | AwaitFetch => 3
  | AwaitSingleToken => 2
  | AwaitRefreshAndUpdate | AwaitAddContinuation
  | AwaitAddOriginal | AwaitFetchQueue => 1
  | Fulfilled | RejectedTypeError => 0
  end.

(** A schedule is fair for a batch of [n] tasks when every task is
    resumed often enough to run to its end. *)
Definition fair (n : nat) (schedule : list nat) : Prop :=
  forall i, (i < n)%nat -> (3 <= count_occ Nat.eq_dec schedule i)%nat.

(** One round-robin schedule that is fair. *)
Definition roundRobin (n : nat) : list nat :=
  seq 0 n ++ seq 0 n ++ seq 0 n.

End Reachability.

(** The lock and self-enqueue calls of a trace, whoever made them. *)
Definition lockCalls {M : Type} (t : list (Caller * Event M)) : list (Event M) :=
  List.filter isLockCall (map snd t).

(** The state of the callback agrees with the states of its tasks. *)
Definition coherent {M : Type} (s : Invocation M) : Prop :=
  match state s with
  | AwaitAll =>
      (forall i, pcs s !! i <> Some RejectedTypeError)
      /\ exists i pc, pcs s !! i = Some pc /\ pc <> Fulfilled
  | Completed => forall i pc, pcs s !! i = Some pc -> pc = Fulfilled
  | Failed => exists i, pcs s !! i = Some RejectedTypeError
  end.

(** The request [processSlug] builds on lines 110-115. *)
Definition withContinuation (r : RefreshTokenBySlug) (c : option string)
    : RefreshTokenBySlug :=
  {| slug := slug r;
     contract := contract r;
     collection := collection r;
     continuation := c |}.

(** What it would mean for task [i] to have been handled as a page with a
    continuation [c]: no downstream refresh or collection update, the
    request re-enqueued prioritized with [c], and the flag set. *)
Definition handledAsContinuation {M : Type} (s : Invocation M) (i : nat)
    (r : RefreshTokenBySlug) (c : string) : Prop :=
  (forall k m col p, ~ In (Slug i, FetchQueueAdd k m col p) (trace s))
  /\ (forall a t m d, ~ In (Slug i, CollectionUpdatesAdd a t m d) (trace s))
  /\ In (Slug i, PendingAdd (withContinuation r (Some c)) true) (trace s)
  /\ retry (vars s) = true.

(** ** Sample inputs *)

Module Sample.

(** A stand-in for [Tokens.getSingleToken]. *)
Definition tokenOf (collection : string) : string := "1".

(** The answers of the provider, by position in the batch. *)
Definition answers (l : list (FetchResult string)) (i : nat) : FetchResult string :=
  nth i l (Threw None).

Definition alpha : RefreshTokenBySlug :=
  mkRefreshTokenBySlug "alpha" "0xaa" "0xaa" None.

Definition beta : RefreshTokenBySlug :=
  mkRefreshTokenBySlug "beta" "0xbb" "0xbb:1:100" (Some "page1").

Definition gamma : RefreshTokenBySlug :=
  mkRefreshTokenBySlug "gamma" "0xcc" "0xcc" None.

Definition skipped : RefreshTokenBySlug :=
  mkRefreshTokenBySlug "skipped" skippedContract skippedContract None.

Definition lock : string := "metadata-index-process-queue-by-slug:opensea".

End Sample.

(** ** Tasks by number of resumptions *)

(** The calls a task makes over its next [k] resumptions from [pc]. *)
Fixpoint emitted {M : Type} (getSingleToken : string -> string)
    (r : RefreshTokenBySlug) (res : FetchResult M) (k : nat) (pc : Pc)
    : list (Event M) :=
  match k with
  | O => []
  | S k' =>
      emits getSingleToken r res pc
        ++ emitted getSingleToken r res k' (next getSingleToken r res pc)
  end.

(** What a task has appended to [metadata] (line 119) when it is at [pc]:
    its page, once it has returned. *)
Definition contribution {M : Type} (r : option RefreshTokenBySlug)
    (res : FetchResult M) (pc : Pc) : list M :=
  match r, res, pc with
  | Some r, Returned md _, Fulfilled => if isSkipped r then [] else md
  | _, _, _ => []
  end.

(** The pages appended so far, by position in the batch. *)
Definition pushedPages {M : Type} (popped : list RefreshTokenBySlug)
    (fetch : nat -> FetchResult M) (pcs : list Pc) : list (list M) :=
  imap (fun i pc => contribution (popped !! i) (fetch i) pc) pcs.

(** The pages the provider returns for the requests that are not skipped,
    by position in the batch. *)
Definition pages {M : Type} (popped : list RefreshTokenBySlug)
    (fetch : nat -> FetchResult M) : list (list M) :=
  imap (fun i r => contribution (Some r) (fetch i) Fulfilled) popped.

(** The provider call [processSlug] makes for a request (lines 93-98). *)
Definition fetchCall {M : Type} (r : RefreshTokenBySlug) : Event M :=
  GetTokensMetadataBySlug (contract r) (slug r) method (continuation r).

(** The request has a rate-limit answer. *)
Definition rateLimited {M : Type} (res : FetchResult M) : option Z :=
  match res with
  | Threw (Some resp) =>
      if status resp =? 429 then Some (Z.max (expires_in resp) 5) else None
  | _ => None
  end.

(** The request has a page with metadata and a continuation. *)
Definition hasNextPage {M : Type} (res : FetchResult M) : bool :=
  match res with
  | Returned md c => negb (length md =? 0)%nat && truthy c
  | Threw _ => false
  end.

(** ** Saving Wyvern orders

    [extractOrderInfo] and [saveOrders] of the order persistence file
    ([src/unnamed/part_000]). The queries [saveOrders] collects are only
    run at its end, in one [db.none]; they are modelled by their kind and
    their values. What the function reads from its collaborators (the SDK
    builders, [@/orders/utils], the three [db.oneOrNone] lookups) is taken
    from an environment; a lookup may answer differently for each order,
    so it is indexed by the position of the order in the batch. Prices are
    the integers their decimal strings denote, and [bn] is integer
    arithmetic with a division that truncates. *)

Module Orders.

(** [order.params], the fields [saveOrders] reads. *)
Record Params := mkParams {
  kind : string;
  target : string;
  side : Z;
  basePrice : Z;
  makerRelayerFee : Z;
  takerRelayerFee : Z;
  feeRecipient : string;
  maker : string;
  listingTime : Z;
  expirationTime : Z
}.

(** [Sdk.WyvernV2.Order]: its parameters and its [prefixHash()]. *)
Record Order := mkOrder {
  params : Params;
  prefixHash : string
}.

(** [OrderInfo]: [{kind: "token", data: {tokenId}}],
    [{kind: "collection", data: {tokenIdRange}}] or [{kind: "collection"}]. *)
Inductive OrderInfo :=
| Token (tokenId : string)
| CollectionRange (tokenIdRange : string * string)
| CollectionWide.

(** [TokenSetInfo] of [@/orders/utils]; the label is kept as it is
    handed to the query. *)
Record TokenSetInfo := mkTokenSetInfo {
  id : string;
  label : string;
  labelHash : string
}.

(** The collaborators. *)
Record Env := mkEnv {
  (* new Sdk.WyvernV2.Builders.Erc721.SingleToken(chainId).getTokenId(order) *)
  erc721TokenId : Order -> string;
  (* new Sdk.WyvernV2.Builders.Erc1155.SingleToken(chainId).getTokenId(order) *)
  erc1155TokenId : Order -> string;
  (* new Sdk.WyvernV2.Builders.Erc721.TokenRange(chainId).getTokenIdRange(order) *)
  erc721TokenIdRange : Order -> string * string;
  (* new Sdk.WyvernV2.Builders.Erc1155.TokenRange(chainId).getTokenIdRange(order) *)
  erc1155TokenIdRange : Order -> string * string;
  (* generateTokenInfo(contract, tokenId) *)
  generateTokenInfo : string -> string -> TokenSetInfo;
  (* generateCollectionInfo(collectionId, contract, tokenIdRange?) *)
  generateCollectionInfo : string -> string -> option (string * string) -> TokenSetInfo;
  (* select 1 from token_sets_tokens where token_set_id = ..., for order [k] *)
  tokenSetTokensExists : nat -> string -> bool;
  (* select c.id from collections c where c.contract = ... and
     c.token_id_range = ..., for order [k]; no range: the contract-wide one *)
  findCollection : nat -> string -> option (string * string) -> option string;
  (* select c.royalty_recipient ... where t.contract = ..., for order [k]:
     no row, or the (nullable) recipient *)
  findRoyalty : nat -> string -> option (option string)
}.

Inductive Side := Buy | Sell.

(** [expirationTime == 0 ? "infinity" : expirationTime] *)
Inductive Expiration := Infinity | At (time : Z).

Record SourceInfo := mkSourceInfo {
  sourceId : string;   (* id *)
  sourceBps : Z        (* bps *)
}.

Record RoyaltyInfo := mkRoyaltyInfo {
  recipient : option string;
  bps : Z
}.

(** The values of the insert into "orders". *)
Record OrderValues := mkOrderValues {
  hash : string;
  orderKind : string;      (* kind *)
  orderStatus : string;    (* status *)
  orderSide : Side;        (* side *)
  tokenSetId : string;
  tokenSetLabelHash : string;
  orderMaker : string;     (* maker *)
  price : Z;
  value : Z;
  orderListingTime : Z;    (* listingTime *)
  orderExpirationTime : Expiration;   (* expirationTime *)
  sourceInfo : SourceInfo;
  royaltyInfo : option (list RoyaltyInfo);
  rawData : Params
}.

(** The queries pushed to [queries]. *)
Inductive Query :=
| InsertTokenSetOfToken (tokenSetId contract tokenId tokenSetLabel tokenSetLabelHash : string)
| InsertTokenSetTokensOfToken (tokenSetId contract tokenId : string)
| InsertTokenSetOfCollection (tokenSetId collectionId tokenSetLabel tokenSetLabelHash : string)
| InsertTokenSetTokensOfCollection (tokenSetId collection : string)
| UpsertOrder (values : OrderValues).

(** The calls that change something. *)
Inductive Call :=
| DbNone (queries : list Query)                   (* db.none(pgp.helpers.concat(queries)) *)
| AddToOrdersUpdateByHashQueue (hashes : list string).

(** [extractOrderInfo], lines 19-89. *)
Definition extractOrderInfo (E : Env) (order : Order) : option OrderInfo :=
  let k := kind (params order) in
  if String.eqb k "erc721-single-token" then Some (Token (erc721TokenId E order))
  else if String.eqb k "erc1155-single-token" then Some (Token (erc1155TokenId E order))
  else if String.eqb k "erc721-token-range" then
    Some (CollectionRange (erc721TokenIdRange E order))
  else if String.eqb k "erc1155-token-range" then
    Some (CollectionRange (erc1155TokenIdRange E order))
  else if String.eqb k "erc721-contract-wide" then Some CollectionWide
  else if String.eqb k "erc1155-contract-wide" then Some CollectionWide
  else None.

(** Lines 103-279 of the loop body: the token set of the order, if any,
    with the queries that create it. *)
Definition tokenSetOf (E : Env) (k : nat) (order : Order) (info : OrderInfo)
    : option TokenSetInfo * list Query :=
  let contract := target (params order) in
  match info with
  | Token tokenId =>
      let tokenSetInfo := generateTokenInfo E contract tokenId in
      (Some tokenSetInfo,
       InsertTokenSetOfToken (id tokenSetInfo) contract tokenId
         (label tokenSetInfo) (labelHash tokenSetInfo)
       :: (if tokenSetTokensExists E k (id tokenSetInfo) then []
           else [InsertTokenSetTokensOfToken (id tokenSetInfo) contract tokenId]))
  | CollectionRange _ | CollectionWide =>
      let tokenIdRange :=
        match info with CollectionRange range => Some range | _ => None end in
      match findCollection E k contract tokenIdRange with
      | Some collectionId =>
          let tokenSetInfo :=
            generateCollectionInfo E collectionId contract tokenIdRange in
          (Some tokenSetInfo,
           InsertTokenSetOfCollection (id tokenSetInfo) collectionId
             (label tokenSetInfo) (labelHash tokenSetInfo)
           :: (if tokenSetTokensExists E k (id tokenSetInfo) then []
               else [InsertTokenSetTokensOfCollection (id tokenSetInfo) collectionId]))
      | None => (None, [])
      end
  end.

(** Lines 285-286. *)
Definition sideOf (p : Params) : Side :=
  if side p =? 0 then Buy else Sell.

(** Lines 288-301: what a buyer's offer is worth once the fee is taken. *)
Definition valueOf (p : Params) : Z :=
  match sideOf p with
  | Buy => basePrice p - Z.quot (basePrice p * takerRelayerFee p) 10000
  | Sell => basePrice p
  end.

(** Lines 305-308. *)
Definition feeBpsOf (p : Params) : Z :=
  Z.max (makerRelayerFee p) (takerRelayerFee p).

(** Lines 310-340. *)
Definition sourceInfoOf (p : Params) : SourceInfo :=
  let r := feeRecipient p in
  if String.eqb r "0x5b3256965e7c3cf26e11fcaf296dfc8807c01073" then
    mkSourceInfo "opensea" 250
  else if String.eqb r "0x8cfdf9e9f7ea8c0871025318407a6f1fbc5d5a18"
          || String.eqb r "0x8e71a0d2cc9c48173d9a9b7d90d6036093212afa" then
    mkSourceInfo "lootexchange" 0
  else mkSourceInfo "unknown" (feeBpsOf p).

(** Lines 344-370: royalties are what is left of the fee after the
    marketplace's share. *)
Definition royaltyInfoOf (E : Env) (k : nat) (p : Params) : option (list RoyaltyInfo) :=
  match findRoyalty E k (target p) with
  | Some recipient =>
      let bps := feeBpsOf p - sourceBps (sourceInfoOf p) in
      if 0 <? bps then
        Some [mkRoyaltyInfo recipient (feeBpsOf p - sourceBps (sourceInfoOf p))]
      else None
  | None => None
  end.

(** Lines 375-431: the values of the insert into "orders". *)
Definition orderValues (E : Env) (k : nat) (order : Order) (t : TokenSetInfo)
    : OrderValues :=
  let p := params order in
  {| hash := prefixHash order;
     orderKind := "wyvern-v2";
     orderStatus := "valid";
     orderSide := sideOf p;
     tokenSetId := id t;
     tokenSetLabelHash := labelHash t;
     orderMaker := maker p;
     price := basePrice p;
     value := valueOf p;
     orderListingTime := listingTime p;
     orderExpirationTime :=
       if expirationTime p =? 0 then Infinity else At (expirationTime p);
     sourceInfo := sourceInfoOf p;
     royaltyInfo := royaltyInfoOf E k p;
     rawData := p |}.

(** One turn of the loop, lines 97-433: the queries pushed for the order
    at position [k]. *)
Definition queriesOf (E : Env) (k : nat) (order : Order) : list Query :=
  match extractOrderInfo E order with
  | None => []
  | Some info =>
      match tokenSetOf E k order info with
      | (Some t, qs) => qs ++ [UpsertOrder (orderValues E k order t)]
      | (None, qs) => qs
      end
  end.

(** The loop, lines 96-433, from the order at position [k] on. *)
Fixpoint loop (E : Env) (k : nat) (orders : list Order) (queries : list Query)
    : list Query :=
  match orders with
  | [] => queries
  | order :: rest => loop E (S k) rest (queries ++ queriesOf E k order)
  end.

(** [saveOrders], lines 91-441. *)
Definition saveOrders (E : Env) (orders : list Order) : list Call :=
  match orders with
  | [] => []
  | _ :: _ =>
      let queries := loop E 0 orders [] in
      (match queries with [] => [] | _ :: _ => [DbNone queries] end)
      ++ [AddToOrdersUpdateByHashQueue (map prefixHash orders)]
  end.

Definition isUpsert (q : Query) : bool :=
  match q with UpsertOrder _ => true | _ => false end.

(** The rows a batch of queries writes to "orders". *)
Definition upsertsOf (qs : list Query) : list OrderValues :=
  omap (fun q => match q with UpsertOrder v => Some v | _ => None end) qs.

(** The token set a query creates. *)
Definition createsTokenSet (q : Query) : option string :=
  match q with
  | InsertTokenSetOfToken t _ _ _ _ | InsertTokenSetOfCollection t _ _ _ => Some t
  | _ => None
  end.

(** In a list of queries, every row comes after the creation of its token
    set. *)
Definition setsFirst (qs : list Query) : Prop :=
  forall n v, qs !! n = Some (UpsertOrder v) ->
    exists m q, (m < n)%nat /\ qs !! m = Some q
                /\ createsTokenSet q = Some (tokenSetId v).

End Orders.

(** Sample orders and collaborators. *)
Module OrderSample.

Definition env : Orders.Env :=
  {| Orders.erc721TokenId := fun _ => "7";
     Orders.erc1155TokenId := fun _ => "8";
     Orders.erc721TokenIdRange := fun _ => ("1", "100");
     Orders.erc1155TokenIdRange := fun _ => ("1", "100");
     Orders.generateTokenInfo := fun c t =>
       Orders.mkTokenSetInfo ("token:" ++ c ++ ":" ++ t)%string "token-label" "h1";
     Orders.generateCollectionInfo := fun c _ _ =>
       Orders.mkTokenSetInfo ("collection:" ++ c)%string "collection-label" "h2";
     Orders.tokenSetTokensExists := fun _ _ => false;
     Orders.findCollection := fun _ c _ =>
       if String.eqb c "0xc0" then Some "c0" else None;
     Orders.findRoyalty := fun _ _ => Some (Some "0xartist") |}.

(** An offer of 1000 on token 7 of 0xc0 through OpenSea, fee 750 bps. *)
Definition offer : Orders.Order :=
  Orders.mkOrder
    (Orders.mkParams "erc721-single-token" "0xc0" 0 1000 0 750
       "0x5b3256965e7c3cf26e11fcaf296dfc8807c01073" "0xmaker" 10 0)
    "0xhash1".

(** A listing on a contract no collection is known for. *)
Definition unmatched : Orders.Order :=
  Orders.mkOrder
    (Orders.mkParams "erc721-contract-wide" "0xdd" 1 500 250 0
       "0x0000000000000000000000000000000000000000" "0xmaker" 10 20)
    "0xhash2".

(** An order of a kind [extractOrderInfo] does not know. *)
Definition unknown : Orders.Order :=
  Orders.mkOrder
    (Orders.mkParams "erc20" "0xee" 1 500 250 0
       "0x0000000000000000000000000000000000000000" "0xmaker" 10 20)
    "0xhash3".

End OrderSample.

(** * Properties *)

(** ** Traces *)

Lemma calls_app {E : Type} (c : Caller) (t1 t2 : list (Caller * E)) :
  calls c (t1 ++ t2) = calls c t1 ++ calls c t2.
Proof.
  induction t1 as [|[c' e] t1 IH]; simpl; [done|].
  destruct (decide (c' = c)); simpl; by rewrite IH.
Qed.

Lemma calls_by_caller {E : Type} (c : Caller) (es : list E) :
  calls c (by_caller c es) = es.
Proof.
  induction es as [|e es IH]; simpl; [done|].
  destruct (decide (c = c)); [by rewrite IH | done].
Qed.

Lemma calls_by_other {E : Type} (c c' : Caller) (es : list E) :
  c' <> c -> calls c (by_caller c' es) = [].
Proof.
  intros Hne. induction es as [|e es IH]; simpl; [done|].
  destruct (decide (c' = c)); [done | exact IH].
Qed.

Lemma In_calls {E : Type} (c : Caller) (e : E) (t : list (Caller * E)) :
  In (c, e) t <-> In e (calls c t).
Proof.
  induction t as [|[c' e'] t IH]; simpl; [tauto|].
  destruct (decide (c' = c)) as [->|Hne]; simpl.
  - split.
    + intros [Heq | Hin]; [left; congruence | right; tauto].
    + intros [Heq | Hin]; [left; congruence | right; tauto].
  - split.
    + intros [Heq | Hin]; [congruence | tauto].
    + intros Hin. right. tauto.
Qed.

(** ** One task *)

Section Task.
Context {MetadataItem : Type}.
Variable getSingleToken : string -> string.

#[local] Abbreviation FetchResult := (FetchResult MetadataItem).
#[local] Abbreviation Closure := (Closure MetadataItem).
#[local] Abbreviation resume := (resume (MetadataItem := MetadataItem) getSingleToken).
#[local] Abbreviation next := (next (MetadataItem := MetadataItem) getSingleToken).
#[local] Abbreviation emits := (emits (MetadataItem := MetadataItem) getSingleToken).
#[local] Abbreviation reach := (reach (MetadataItem := MetadataItem) getSingleToken).

Lemma resume_eq r (res : FetchResult) pc (v : Closure) :
  exists v', resume r res pc v = (next r res pc, v', emits r res pc).
Proof.
  unfold next, emits.
  destruct pc; simpl; eauto;
    destruct res as [md c | [resp|]]; simpl; eauto;
    repeat (case_match; simpl; eauto).
Qed.

Lemma resume_settled r (res : FetchResult) pc (v : Closure) :
  isSettled pc = true -> resume r res pc v = (pc, v, []).
Proof. by destruct pc. Qed.

Lemma next_settled r (res : FetchResult) pc :
  isSettled pc = true -> next r res pc = pc /\ emits r res pc = [].
Proof. by destruct pc. Qed.

Lemma fuel_settled pc : fuel pc = 0%nat <-> isSettled pc = true.
Proof. destruct pc; simpl; split; intros; try done; lia. Qed.

Lemma fuel_next r (res : FetchResult) pc :
  (fuel (next r res pc) <= fuel pc - 1)%nat.
Proof.
  unfold next.
  destruct pc; simpl; try lia;
    destruct res as [md c | [resp|]]; simpl; try lia;
    repeat (case_match; simpl; try lia).
Qed.

Lemma fuel_iter r (res : FetchResult) pc k :
  (fuel (Nat.iter k (next r res) pc) <= fuel pc - k)%nat.
Proof.
  induction k as [|k IH]; simpl; [lia|].
  pose proof (fuel_next r res (Nat.iter k (next r res) pc)). lia.
Qed.

(** The closure variables only grow: the flag is never cleared, the
    cooldown never decreases and metadata is only appended. *)
Lemma resume_retry r (res : FetchResult) pc (v : Closure) :
  retry v = true -> retry (snd (fst (resume r res pc v))) = true.
Proof.
  intros Hv. destruct pc; simpl; try done;
    destruct res as [md c | [resp|]]; simpl; try done;
    repeat (case_match; simpl; try done).
Qed.

Lemma resume_rateLimit r (res : FetchResult) pc (v : Closure) :
  rateLimitExpiredIn v <= rateLimitExpiredIn (snd (fst (resume r res pc v))).
Proof.
  destruct pc; simpl; try lia;
    destruct res as [md c | [resp|]]; simpl; try lia;
    repeat (case_match; simpl; try lia).
Qed.

Lemma resume_metadata r (res : FetchResult) pc (v : Closure) :
  exists md, metadata (snd (fst (resume r res pc v))) = metadata v ++ md.
Proof.
  destruct pc; simpl; try (by exists []; rewrite app_nil_r);
    destruct res as [md c | [resp|]]; simpl;
    repeat (case_match; simpl);
    first [ by exists []; rewrite app_nil_r | by eexists ].
Qed.

(** A task that is skipped makes no call and has returned. *)
Lemma reach_skipped r (res : FetchResult) pc es :
  isSkipped r = true -> reach r res pc es -> pc = Fulfilled /\ es = [].
Proof.
  intros Hskip Hreach. induction Hreach as [|pc es _ [-> ->]].
  - unfold processSlug. by rewrite Hskip.
  - done.
Qed.

(** The calls of a task whose page is empty. *)
Lemma reach_empty_page r c pc es :
  isSkipped r = false ->
  reach r (Returned [] c) pc es ->
  let f := GetTokensMetadataBySlug (contract r) (slug r) method (continuation r) in
  let g := GetSingleToken (collection r) in
  let a := FetchQueueAdd "full-collection" method (collection r) true in
  let u := CollectionUpdatesAdd (contract r) (getSingleToken (collection r)) method 0 in
  (pc = AwaitFetch /\ es = [f])
  \/ (pc = AwaitSingleToken /\ es = [f; g])
  \/ (pc = AwaitRefreshAndUpdate /\ es = [f; g; a; u])
  \/ (pc = Fulfilled /\ es = [f; g; a; u]).
Proof.
  intros Hskip Hreach. simpl. induction Hreach as [|pc es _ IH].
  - left. unfold processSlug. by rewrite Hskip.
  - destruct IH as [[-> ->] | [[-> ->] | [[-> ->] | [-> ->]]]]; simpl; auto.
Qed.

(** The calls of a task whose page is not empty. *)
Lemma reach_page r md c pc es :
  isSkipped r = false ->
  md <> [] ->
  reach r (Returned md c) pc es ->
  let f := GetTokensMetadataBySlug (contract r) (slug r) method (continuation r) in
  (pc = AwaitFetch /\ es = [f])
  \/ (truthy c = true /\ (pc = AwaitAddContinuation \/ pc = Fulfilled)
      /\ es = [f; PendingAdd (withContinuation r c) true])
  \/ (truthy c = false /\ pc = Fulfilled /\ es = [f]).
Proof.
  intros Hskip Hmd Hreach. simpl. induction Hreach as [|pc es _ IH].
  - left. unfold processSlug. by rewrite Hskip.
  - unfold next, emits.
    destruct IH as [[-> ->] | [(Hc & [-> | ->] & ->) | (Hc & -> & ->)]]; simpl.
    + destruct md as [|m md]; [done|]. simpl.
      destruct (truthy c) eqn:Hc; simpl; auto 10.
    + auto 10.
    + auto 10.
    + auto 10.
Qed.

(** The calls of a task whose provider call is rejected with a response. *)
Lemma reach_response r resp pc es :
  isSkipped r = false ->
  reach r (Threw (Some resp)) pc es ->
  let f := GetTokensMetadataBySlug (contract r) (slug r) method (continuation r) in
  (pc = AwaitFetch /\ es = [f])
  \/ (status resp = 429 /\ (pc = AwaitAddOriginal \/ pc = Fulfilled)
      /\ es = [f; PendingAdd r true])
  \/ (status resp <> 429 /\ (pc = AwaitFetchQueue \/ pc = Fulfilled)
      /\ es = [f; FetchQueueAdd "full-collection" method (contract r) true]).
Proof.
  intros Hskip Hreach. simpl. induction Hreach as [|pc es _ IH].
  - left. unfold processSlug. by rewrite Hskip.
  - unfold next, emits.
    destruct IH as [[-> ->] | [(Hc & [-> | ->] & ->) | (Hc & [-> | ->] & ->)]];
      simpl; auto 10.
    destruct (Z.eqb_spec (status resp) 429); simpl; auto 10.
Qed.

(** The calls of a task whose provider call is rejected without a
    response: the task rejects as soon as it is resumed. *)
Lemma reach_no_response r pc es :
  isSkipped r = false ->
  reach r (Threw None) pc es ->
  (pc = AwaitFetch \/ pc = RejectedTypeError)
  /\ es = [GetTokensMetadataBySlug (contract r) (slug r) method (continuation r)].
Proof.
  intros Hskip Hreach. induction Hreach as [|pc es _ [[-> | ->] ->]].
  - unfold processSlug. rewrite Hskip. auto.
  - simpl. auto.
  - simpl. auto.
Qed.

(** A task only rejects on an error without a response. *)
Lemma reach_rejected r (res : FetchResult) es :
  reach r res RejectedTypeError es -> isSkipped r = false /\ res = Threw None.
Proof.
  intros Hreach.
  destruct (isSkipped r) eqn:Hskip.
  { by destruct (reach_skipped _ _ _ _ Hskip Hreach). }
  split; [done|].
  destruct res as [md c | [resp|]]; [| |done].
  - destruct md as [|m md].
    + apply reach_empty_page in Hreach; [|done].
      destruct Hreach as [[? _] | [[? _] | [[? _] | [? _]]]]; done.
    + apply reach_page in Hreach; [|done..].
      destruct Hreach as [[? _] | [(_ & [?|?] & _) | (_ & ? & _)]]; done.
  - apply reach_response in Hreach; [|done].
    destruct Hreach as [[? _] | [(_ & [?|?] & _) | (_ & [?|?] & _)]]; done.
Qed.

(** No task touches the lock, enqueues a run or writes metadata. *)
Lemma reach_calls r (res : FetchResult) pc es e :
  reach r res pc es -> In e es ->
  isLockCall e = false /\ (forall md, e <> WriteQueueAdd md) /\ (forall n, e <> PendingGet n).
Proof.
  intros Hreach. induction Hreach as [|pc es _ IH].
  - unfold processSlug. destruct (isSkipped r); simpl; [done|].
    intros [<- | []]. done.
  - rewrite in_app_iff. intros [Hin | Hin]; [auto|].
    revert Hin. unfold emits.
    destruct pc; simpl; try done;
      destruct res as [md c | [resp|]]; simpl; try done;
      repeat (case_match; simpl; try done);
      intros Hin; repeat (destruct Hin as [<- | Hin]; [done|]); done.
Qed.

End Task.

(** ** Starting the tasks *)

Section Launch.
Context {MetadataItem : Type}.

#[local] Abbreviation launch := (launch (MetadataItem := MetadataItem)).
#[local] Abbreviation processSlug := (processSlug (MetadataItem := MetadataItem)).

Lemma launch_cons i r rs :
  launch i (r :: rs) =
    (fst (processSlug r) :: fst (launch (S i) rs),
     by_caller (Slug i) (snd (processSlug r)) ++ snd (launch (S i) rs)).
Proof. simpl. destruct (processSlug r), (launch (S i) rs). done. Qed.

Lemma launch_length rs i : length (fst (launch i rs)) = length rs.
Proof.
  revert i. induction rs as [|r rs IH]; intros i; [done|].
  rewrite launch_cons. simpl. by rewrite IH.
Qed.

Lemma launch_lookup rs i k :
  fst (launch i rs) !! k = (fun r => fst (processSlug r)) <$> rs !! k.
Proof.
  revert i k. induction rs as [|r rs IH]; intros i k; [done|].
  rewrite launch_cons. destruct k as [|k]; simpl; [done|]. apply IH.
Qed.

Lemma launch_calls_body rs i : calls Body (snd (launch i rs)) = [].
Proof.
  revert i. induction rs as [|r rs IH]; intros i; [done|].
  rewrite launch_cons. simpl. rewrite calls_app, calls_by_other, IH; done.
Qed.

Lemma launch_calls_outside rs i j :
  (j < i \/ i + length rs <= j)%nat -> calls (Slug j) (snd (launch i rs)) = [].
Proof.
  revert i. induction rs as [|r rs IH]; intros i Hj; [done|].
  rewrite launch_cons. simpl in *. rewrite calls_app, calls_by_other, IH.
  - done.
  - lia.
  - intros [= ->]. lia.
Qed.

Lemma launch_calls rs i k r :
  rs !! k = Some r ->
  calls (Slug (i + k)) (snd (launch i rs)) = snd (processSlug r).
Proof.
  revert i k. induction rs as [|r' rs IH]; intros i k Hk; [done|].
  rewrite launch_cons. simpl. rewrite calls_app.
  destruct k as [|k]; simpl in Hk.
  - injection Hk as ->. rewrite Nat.add_0_r, calls_by_caller.
    rewrite launch_calls_outside; [apply app_nil_r | lia].
  - rewrite calls_by_other; [|intros [= ?]; lia].
    replace (i + S k)%nat with (S i + k)%nat by lia. by apply IH.
Qed.

End Launch.

(** ** Invocations *)

Section Invocation.
Context {MetadataItem : Type}.
Variable maxParallelTokenCollectionSlugRefreshJobs : Z.
Variable getSingleToken : string -> string.
Variable popped : list RefreshTokenBySlug.
Variable fetch : nat -> FetchResult MetadataItem.
Variable extended : bool.

#[local] Abbreviation Invocation := (Invocation MetadataItem).
#[local] Abbreviation countTotal :=
  (countTotal maxParallelTokenCollectionSlugRefreshJobs).
#[local] Abbreviation epilogue :=
  (epilogue (MetadataItem := MetadataItem)
     maxParallelTokenCollectionSlugRefreshJobs popped extended).
#[local] Abbreviation settle :=
  (settle (MetadataItem := MetadataItem)
     maxParallelTokenCollectionSlugRefreshJobs popped extended).
#[local] Abbreviation step :=
  (step maxParallelTokenCollectionSlugRefreshJobs getSingleToken
     popped fetch extended).
#[local] Abbreviation launched :=
  (launched (MetadataItem := MetadataItem)
     maxParallelTokenCollectionSlugRefreshJobs popped).
#[local] Abbreviation Worker :=
  (Worker maxParallelTokenCollectionSlugRefreshJobs getSingleToken
     popped fetch extended).
#[local] Abbreviation reachable :=
  (reachable maxParallelTokenCollectionSlugRefreshJobs getSingleToken
     popped fetch extended).
#[local] Abbreviation resume := (resume (MetadataItem := MetadataItem) getSingleToken).
#[local] Abbreviation next := (next (MetadataItem := MetadataItem) getSingleToken).
#[local] Abbreviation emits := (emits (MetadataItem := MetadataItem) getSingleToken).
#[local] Abbreviation reach := (reach (MetadataItem := MetadataItem) getSingleToken).

(** *** [Promise.all] *)

Lemma settle_vars (s : Invocation) : vars (settle s) = vars s.
Proof. unfold settle. repeat case_match; done. Qed.

Lemma settle_pcs (s : Invocation) : pcs (settle s) = pcs s.
Proof. unfold settle. repeat case_match; done. Qed.

Lemma settle_calls (s : Invocation) i :
  calls (Slug i) (trace (settle s)) = calls (Slug i) (trace s).
Proof.
  unfold settle. repeat case_match; try done.
  cbn [trace]. rewrite calls_app, calls_by_other; [apply app_nil_r | done].
Qed.

Lemma existsb_isRejected (l : list Pc) :
  existsb isRejected l = true <-> exists i, l !! i = Some RejectedTypeError.
Proof.
  rewrite existsb_exists. split.
  - intros (pc & Hin & Hpc). destruct pc; try done.
    by apply list_elem_of_lookup, list_elem_of_In.
  - intros [i Hi]. exists RejectedTypeError. split; [|done].
    apply list_elem_of_In. by eapply list_elem_of_lookup_2.
Qed.

Lemma forallb_isFulfilled (l : list Pc) :
  forallb isFulfilled l = true <-> forall i pc, l !! i = Some pc -> pc = Fulfilled.
Proof.
  rewrite forallb_forall. split.
  - intros H i pc Hi. specialize (H pc).
    destruct pc; try done; discriminate H;
      apply list_elem_of_In; by eapply list_elem_of_lookup_2.
  - intros H pc Hin. apply list_elem_of_In, list_elem_of_lookup in Hin as [i Hi].
    by rewrite (H i pc Hi).
Qed.

Lemma forallb_isFulfilled_false (l : list Pc) :
  forallb isFulfilled l = false -> exists i pc, l !! i = Some pc /\ pc <> Fulfilled.
Proof.
  induction l as [|pc l IH]; simpl; [done|].
  destruct (isFulfilled pc) eqn:Hpc; simpl.
  - intros H. destruct (IH H) as (i & pc' & Hi & Hne). by exists (S i), pc'.
  - intros _. exists 0%nat, pc. split; [done|]. by intros ->.
Qed.

Lemma settle_coherent (s : Invocation) :
  state s = AwaitAll \/ coherent s -> coherent (settle s).
Proof.
  intros H. unfold settle.
  destruct (state s) eqn:Hst.
  - destruct (existsb isRejected (pcs s)) eqn:Hrej.
    { unfold coherent. simpl. by apply existsb_isRejected. }
    destruct (forallb isFulfilled (pcs s)) eqn:Hful.
    { unfold coherent. simpl. by apply forallb_isFulfilled. }
    unfold coherent. rewrite Hst. split.
    + intros i Hi. apply not_true_iff_false in Hrej. apply Hrej.
      apply existsb_isRejected. eauto.
    + by apply forallb_isFulfilled_false.
  - destruct H as [? | H]; [done|]. done.
  - destruct H as [? | H]; [done|]. done.
Qed.

(** *** One step *)

Lemma step_skip (s : Invocation) i :
  popped !! i = None \/ pcs s !! i = None -> step s i = s.
Proof.
  unfold step. intros [-> | H]; [done|].
  rewrite H. by destruct (popped !! i).
Qed.

Lemma step_eq (s : Invocation) i r pc :
  popped !! i = Some r ->
  pcs s !! i = Some pc ->
  exists v',
    resume r (fetch i) pc (vars s) = (next r (fetch i) pc, v', emits r (fetch i) pc)
    /\ step s i =
         settle (mkInvocation v' (<[i := next r (fetch i) pc]> (pcs s))
                   (trace s ++ by_caller (Slug i) (emits r (fetch i) pc))
                   (state s)).
Proof.
  intros Hr Hpc. unfold step. rewrite Hr, Hpc.
  destruct (resume_eq getSingleToken r (fetch i) pc (vars s)) as [v' Hv'].
  exists v'. by rewrite Hv'.
Qed.

Lemma step_settled (s : Invocation) i pc :
  pcs s !! i = Some pc -> isSettled pc = true -> state s <> AwaitAll ->
  step s i = s.
Proof.
  intros Hpc Hset Hst. unfold step. rewrite Hpc.
  destruct (popped !! i) as [r|]; [|done].
  rewrite resume_settled by done.
  rewrite list_insert_id by done.
  unfold by_caller. simpl. rewrite app_nil_r.
  unfold settle. simpl.
  destruct s as [v p t st]; simpl in *. by destruct st.
Qed.

(** *** Invariants *)

Lemma Worker_reachable schedule :
  popped <> [] -> reachable (Worker schedule).
Proof.
  intros Hne. unfold Worker. destruct popped as [|r rs] eqn:Hp; [done|].
  rewrite <- Hp. clear Hne.
  assert (reachable (settle launched)) as H by constructor.
  revert H. generalize (settle launched).
  induction schedule as [|i schedule IH]; intros s Hs; simpl; [done|].
  apply IH. by constructor.
Qed.

(** Every task is where its own calls say it is. *)
Lemma reachable_tasks (s : Invocation) i :
  reachable s ->
  match popped !! i with
  | Some r =>
      exists pc, pcs s !! i = Some pc
                 /\ reach r (fetch i) pc (calls (Slug i) (trace s))
  | None => pcs s !! i = None /\ calls (Slug i) (trace s) = []
  end.
Proof.
  intros Hs. revert i. induction Hs as [|s j Hs IH]; intros i.
  - rewrite settle_pcs, settle_calls. unfold launched.
    destruct (launch 0 popped) as [p t] eqn:Hl. simpl.
    assert (p = fst (launch (MetadataItem := MetadataItem) 0 popped))
      as -> by by rewrite Hl.
    assert (t = snd (launch (MetadataItem := MetadataItem) 0 popped))
      as -> by by rewrite Hl.
    rewrite launch_lookup.
    destruct (popped !! i) as [r|] eqn:Hr; simpl.
    + eexists. split; [done|].
      rewrite (launch_calls popped 0 i r Hr). constructor.
    + split; [done|]. apply launch_calls_outside.
      apply lookup_ge_None_1 in Hr. lia.
  - pose proof (IH j) as IHj.
    destruct (popped !! j) as [rj|] eqn:Hrj; cycle 1.
    { rewrite step_skip by auto. apply IH. }
    destruct IHj as (pcj & Hpcj & Hreach).
    destruct (step_eq s j rj pcj Hrj Hpcj) as (v' & _ & ->).
    rewrite settle_pcs, settle_calls. simpl. rewrite calls_app.
    destruct (decide (i = j)) as [->|Hne].
    + rewrite Hrj. eexists. split.
      * apply list_lookup_insert_eq. by eapply lookup_lt_Some.
      * rewrite calls_by_caller. by constructor.
    + rewrite list_lookup_insert_ne by done.
      rewrite calls_by_other, app_nil_r by congruence. apply IH.
Qed.

Lemma reachable_length (s : Invocation) :
  reachable s -> length (pcs s) = length popped.
Proof.
  intros Hs.
  destruct (Nat.lt_trichotomy (length (pcs s)) (length popped)) as [H | [H | H]];
    [|done|].
  - pose proof (reachable_tasks s (length (pcs s)) Hs) as Ht.
    destruct (lookup_lt_is_Some_2 popped _ H) as [r Hr]. rewrite Hr in Ht.
    destruct Ht as (pc & Hpc & _). apply lookup_lt_Some in Hpc. lia.
  - pose proof (reachable_tasks s (length popped) Hs) as Ht.
    rewrite (lookup_ge_None_2 popped) in Ht by lia.
    destruct Ht as [Ht _]. apply lookup_ge_None_1 in Ht. lia.
Qed.

(** The callback is suspended exactly while a task is pending and none
    has rejected. *)
Lemma reachable_coherent (s : Invocation) : reachable s -> coherent s.
Proof.
  induction 1 as [|s j Hs IH].
  - apply settle_coherent. left. unfold launched.
    by destruct (launch 0 popped).
  - pose proof (reachable_tasks s j Hs) as Ht.
    destruct (popped !! j) as [rj|] eqn:Hrj; cycle 1.
    { by rewrite step_skip by auto. }
    destruct Ht as (pcj & Hpcj & Hreach).
    destruct (step_eq s j rj pcj Hrj Hpcj) as (v' & _ & ->).
    apply settle_coherent. simpl.
    destruct (state s) eqn:Hst; [by left|right..]; unfold coherent in *;
      rewrite Hst in IH; simpl.
    + intros i pc. assert (pcj = Fulfilled) as -> by eauto.
      unfold next. simpl.
      rewrite list_insert_id by done. apply IH.
    + destruct IH as [i Hi]. exists i.
      destruct (decide (i = j)) as [->|Hne].
      * rewrite Hpcj in Hi. injection Hi as ->. simpl.
        apply list_lookup_insert_eq. by eapply lookup_lt_Some.
      * by rewrite list_lookup_insert_ne.
Qed.


(** *** What a step changes *)

Lemma step_pcs_ne (s : Invocation) i j :
  i <> j -> pcs (step s j) !! i = pcs s !! i.
Proof.
  intros Hne. unfold step.
  destruct (popped !! j) as [r|]; [|done].
  destruct (pcs s !! j) as [pc|]; [|done].
  destruct (resume _ _ _ _) as [[pc' v'] es].
  rewrite settle_pcs. simpl. by rewrite list_lookup_insert_ne.
Qed.

Lemma step_pcs_eq (s : Invocation) i r pc :
  popped !! i = Some r -> pcs s !! i = Some pc ->
  pcs (step s i) !! i = Some (next r (fetch i) pc).
Proof.
  intros Hr Hpc. destruct (step_eq s i r pc Hr Hpc) as (v' & _ & ->).
  rewrite settle_pcs. simpl.
  apply list_lookup_insert_eq. by eapply lookup_lt_Some.
Qed.

Lemma step_vars (s : Invocation) i r pc :
  popped !! i = Some r -> pcs s !! i = Some pc ->
  vars (step s i) = snd (fst (resume r (fetch i) pc (vars s))).
Proof.
  intros Hr Hpc. destruct (step_eq s i r pc Hr Hpc) as (v' & Hv' & ->).
  rewrite settle_vars. simpl. by rewrite Hv'.
Qed.

(** The closure variables only grow along a run. *)
Lemma step_grows (s : Invocation) i :
  rateLimitExpiredIn (vars s) <= rateLimitExpiredIn (vars (step s i))
  /\ (retry (vars s) = true -> retry (vars (step s i)) = true)
  /\ exists md, metadata (vars (step s i)) = metadata (vars s) ++ md.
Proof.
  destruct (popped !! i) as [r|] eqn:Hr; cycle 1.
  { rewrite step_skip by auto. split; [lia|]. split; [done|].
    exists []. by rewrite app_nil_r. }
  destruct (pcs s !! i) as [pc|] eqn:Hpc; cycle 1.
  { rewrite step_skip by auto. split; [lia|]. split; [done|].
    exists []. by rewrite app_nil_r. }
  rewrite (step_vars s i r pc Hr Hpc).
  split; [apply resume_rateLimit|]. split; [apply resume_retry|].
  apply resume_metadata.
Qed.

Lemma next_not_AwaitFetch r (res : FetchResult MetadataItem) pc :
  next r res pc <> AwaitFetch.
Proof.
  unfold next.
  destruct pc; simpl; try done;
    destruct res as [md c | [resp|]]; simpl; try done;
    repeat (case_match; simpl; try done).
Qed.

(** A task that has left its first [await] does not come back to it. *)
Lemma step_not_AwaitFetch (s : Invocation) i j :
  pcs s !! i <> Some AwaitFetch -> pcs (step s j) !! i <> Some AwaitFetch.
Proof.
  intros Hi. destruct (decide (i = j)) as [->|Hne]; [|by rewrite step_pcs_ne].
  destruct (popped !! j) as [r|] eqn:Hr; [|by rewrite step_skip by auto].
  destruct (pcs s !! j) as [pc|] eqn:Hpc;
    [|rewrite step_skip by auto; by rewrite Hpc].
  rewrite (step_pcs_eq s j r pc Hr Hpc). intros [= H].
  by apply next_not_AwaitFetch in H.
Qed.

(** *** The calls of the callback itself *)

Lemma reachable_body (s : Invocation) :
  reachable s ->
  calls Body (trace s) =
    PendingGet countTotal ::
    match state s with
    | Completed => epilogue (vars s)
    | _ => []
    end.
Proof.
  induction 1 as [|s j Hs IH].
  - unfold launched, settle.
    pose proof (launch_calls_body (MetadataItem := MetadataItem) popped 0) as Hb.
    destruct (launch 0 popped) as [p t]. cbn [snd state pcs] in *.
    repeat case_match; cbn [trace state vars calls];
      rewrite ?calls_app, ?calls_by_caller; simpl; rewrite ?Hb; done.
  - pose proof (reachable_tasks s j Hs) as Ht.
    pose proof (reachable_coherent s Hs) as Hco.
    destruct (popped !! j) as [rj|] eqn:Hrj; cycle 1.
    { by rewrite step_skip by auto. }
    destruct Ht as (pcj & Hpcj & Hreach).
    destruct (state s) eqn:Hst.
    + destruct (step_eq s j rj pcj Hrj Hpcj) as (v' & _ & ->).
      unfold settle. cbn [state pcs trace vars]. rewrite Hst.
      repeat case_match; cbn [state pcs trace vars];
        rewrite ?calls_app, ?calls_by_caller, ?calls_by_other, ?app_nil_r, ?IH
          by done;
        done.
    + unfold coherent in Hco. rewrite Hst in Hco.
      rewrite (step_settled s j pcj); [by rewrite IH, Hst|done| |congruence].
      by rewrite (Hco j pcj Hpcj).
    + destruct (step_eq s j rj pcj Hrj Hpcj) as (v' & _ & ->).
      unfold settle. cbn [state pcs trace vars]. rewrite Hst.
      cbn [state pcs trace vars].
      rewrite calls_app, calls_by_other, app_nil_r, IH; done.
Qed.

(** *** The closure variables *)

Lemma reachable_rateLimit_nonneg (s : Invocation) :
  reachable s -> 0 <= rateLimitExpiredIn (vars s).
Proof.
  induction 1 as [|s j Hs IH].
  - rewrite settle_vars. unfold launched.
    by destruct (launch 0 popped).
  - pose proof (step_grows s j) as [Hle _]. lia.
Qed.


Lemma launched_pcs i r :
  popped !! i = Some r ->
  pcs (settle launched) !! i = Some (fst (processSlug (MetadataItem := MetadataItem) r)).
Proof.
  intros Hr. rewrite settle_pcs. unfold launched.
  pose proof (launch_lookup (MetadataItem := MetadataItem) popped 0 i) as Hl.
  destruct (launch 0 popped) as [p t]. simpl in *.
  by rewrite Hl, Hr.
Qed.

Lemma launched_vars : vars (settle launched) = mkClosure false 0 [].
Proof.
  rewrite settle_vars. unfold launched.
  by destruct (launch 0 popped).
Qed.

(** The flag is set once a task has got a page with a continuation. *)
Lemma reachable_retry_set (s : Invocation) i r md c :
  reachable s ->
  popped !! i = Some r -> isSkipped r = false ->
  fetch i = Returned md c -> md <> [] -> truthy c = true ->
  pcs s !! i <> Some AwaitFetch ->
  retry (vars s) = true.
Proof.
  intros Hs Hr Hskip Hres Hmd Hc. induction Hs as [|s j Hs IH].
  - rewrite (launched_pcs i r Hr). unfold processSlug. by rewrite Hskip.
  - intros Hpc. pose proof (step_grows s j) as (_ & Hgrow & _).
    destruct (decide (pcs s !! i = Some AwaitFetch)) as [Hi|Hi]; [|by auto].
    destruct (decide (i = j)) as [<-|Hne]; [|by rewrite step_pcs_ne in Hpc].
    rewrite (step_vars s i r AwaitFetch Hr Hi), Hres. simpl.
    destruct md as [|m md]; [done|]. simpl. by rewrite Hc.
Qed.

(** The flag is only set by a page with a continuation. *)
Lemma reachable_retry_only (s : Invocation) :
  reachable s ->
  retry (vars s) = true ->
  exists i r md c,
    popped !! i = Some r /\ isSkipped r = false
    /\ fetch i = Returned md c /\ md <> [] /\ truthy c = true
    /\ pcs s !! i <> Some AwaitFetch.
Proof.
  induction 1 as [|s j Hs IH].
  - by rewrite launched_vars.
  - intros Hretry.
    destruct (retry (vars s)) eqn:Hold.
    { destruct IH as (i & r & md & c & Hr & Hskip & Hres & Hmd & Hc & Hpc); [done|].
      exists i, r, md, c. repeat split; try done. by apply step_not_AwaitFetch. }
    pose proof (reachable_tasks s j Hs) as Ht.
    destruct (popped !! j) as [rj|] eqn:Hrj; cycle 1.
    { rewrite step_skip in Hretry by auto. congruence. }
    destruct Ht as (pcj & Hpcj & Hreach).
    rewrite (step_vars s j rj pcj Hrj Hpcj) in Hretry.
    destruct (isSkipped rj) eqn:Hskip.
    { destruct (reach_skipped _ _ _ _ _ Hskip Hreach) as [-> _].
      simpl in Hretry. congruence. }
    assert (pcj = AwaitFetch /\ exists md c,
              fetch j = Returned md c /\ md <> [] /\ truthy c = true)
      as (-> & md & c & Hres & Hmd & Hc).
    { revert Hretry. destruct pcj; simpl; try congruence;
        destruct (fetch j) as [md c | [resp|]]; simpl; try congruence;
        repeat (case_match; simpl; try congruence).
      intros _. split; [done|]. exists md, c. repeat split; try done.
      intros ->. done. }
    exists j, rj, md, c. repeat split; try done.
    rewrite (step_pcs_eq s j rj AwaitFetch Hrj Hpcj).
    intros [= H]. by apply next_not_AwaitFetch in H.
Qed.

(** The cooldown covers every rate limit that has been seen. *)
Lemma reachable_rateLimit_lower (s : Invocation) i r resp :
  reachable s ->
  popped !! i = Some r -> isSkipped r = false ->
  fetch i = Threw (Some resp) -> status resp = 429 ->
  pcs s !! i <> Some AwaitFetch ->
  Z.max (expires_in resp) 5 <= rateLimitExpiredIn (vars s).
Proof.
  intros Hs Hr Hskip Hres Hst. induction Hs as [|s j Hs IH].
  - rewrite (launched_pcs i r Hr). unfold processSlug. by rewrite Hskip.
  - intros Hpc. pose proof (step_grows s j) as (Hgrow & _).
    destruct (decide (pcs s !! i = Some AwaitFetch)) as [Hi|Hi];
      [|specialize (IH Hi); lia].
    destruct (decide (i = j)) as [<-|Hne]; [|by rewrite step_pcs_ne in Hpc].
    rewrite (step_vars s i r AwaitFetch Hr Hi), Hres. simpl.
    rewrite Hst. simpl. lia.
Qed.

(** The cooldown is zero, or what one rate-limited task asked for, with
    the floor of five seconds. *)
Lemma reachable_rateLimit_only (s : Invocation) :
  reachable s ->
  rateLimitExpiredIn (vars s) = 0
  \/ exists i r resp,
       popped !! i = Some r /\ isSkipped r = false
       /\ fetch i = Threw (Some resp) /\ status resp = 429
       /\ pcs s !! i <> Some AwaitFetch
       /\ rateLimitExpiredIn (vars s) = Z.max (expires_in resp) 5.
Proof.
  induction 1 as [|s j Hs IH].
  - left. by rewrite launched_vars.
  - pose proof (reachable_rateLimit_nonneg s Hs) as Hnn.
    destruct (decide (rateLimitExpiredIn (vars (step s j))
                      = rateLimitExpiredIn (vars s))) as [Heq|Hneq].
    { rewrite Heq. destruct IH as [IH | (i & r & resp & Hr & Hsk & Hres & Hst & Hpc & Hv)];
        [by left|right].
      exists i, r, resp. repeat split; try done. by apply step_not_AwaitFetch. }
    right.
    pose proof (reachable_tasks s j Hs) as Ht.
    destruct (popped !! j) as [rj|] eqn:Hrj; cycle 1.
    { rewrite step_skip in Hneq by auto. done. }
    destruct Ht as (pcj & Hpcj & Hreach).
    rewrite (step_vars s j rj pcj Hrj Hpcj) in Hneq |- *.
    destruct (isSkipped rj) eqn:Hskip.
    { destruct (reach_skipped _ _ _ _ _ Hskip Hreach) as [-> _]. done. }
    assert (pcj = AwaitFetch /\ exists resp,
              fetch j = Threw (Some resp) /\ status resp = 429)
      as (-> & resp & Hres & Hst).
    { revert Hneq. destruct pcj; simpl; try congruence;
        destruct (fetch j) as [md c | [resp|]]; simpl; try congruence;
        repeat (case_match; simpl; try congruence).
      intros _. split; [done|]. exists resp. split; [done|]. lia. }
    exists j, rj, resp. rewrite Hres in Hneq |- *. simpl in Hneq |- *.
    rewrite Hst in Hneq |- *. simpl in Hneq |- *.
    repeat split; try done.
    + rewrite (step_pcs_eq s j rj AwaitFetch Hrj Hpcj).
      intros [= H]. by apply next_not_AwaitFetch in H.
    + destruct IH as [IH | (i & r & resp' & Hr & Hsk & Hres' & Hst' & Hpc & Hv)]; lia.
Qed.


(** Every item of the aggregate comes from the page of some task. *)
Lemma reachable_metadata_only (s : Invocation) m :
  reachable s ->
  In m (metadata (vars s)) ->
  exists i r md c,
    popped !! i = Some r /\ isSkipped r = false
    /\ fetch i = Returned md c /\ In m md.
Proof.
  induction 1 as [|s j Hs IH].
  - by rewrite launched_vars.
  - pose proof (reachable_tasks s j Hs) as Ht.
    destruct (popped !! j) as [rj|] eqn:Hrj; cycle 1.
    { by rewrite step_skip by auto. }
    destruct Ht as (pcj & Hpcj & Hreach).
    rewrite (step_vars s j rj pcj Hrj Hpcj).
    destruct (isSkipped rj) eqn:Hskip.
    { destruct (reach_skipped _ _ _ _ _ Hskip Hreach) as [-> _]. done. }
    assert (metadata (snd (fst (resume rj (fetch j) pcj (vars s))))
            = metadata (vars s)
            \/ exists md c, fetch j = Returned md c
                 /\ metadata (snd (fst (resume rj (fetch j) pcj (vars s))))
                    = metadata (vars s) ++ md) as [-> | (md & c & Hres & ->)].
    { destruct pcj; simpl; auto;
        destruct (fetch j) as [md c | [resp|]]; simpl; auto;
        repeat (case_match; simpl; auto); right; eauto. }
    + done.
    + rewrite in_app_iff. intros [Hin | Hin]; [auto|].
      exists j, rj, md, c. done.
Qed.


(** *** Schedules *)

Lemma Worker_app schedule schedule' :
  popped <> [] ->
  Worker (schedule ++ schedule') = fold_left step schedule' (Worker schedule).
Proof.
  intros Hne. unfold Worker. destruct popped; [done|].
  apply fold_left_app.
Qed.

(** Where a task is depends only on how often it has been resumed. *)
Lemma run_pcs schedule (s : Invocation) i r pc :
  popped !! i = Some r -> pcs s !! i = Some pc ->
  pcs (fold_left step schedule s) !! i
  = Some (Nat.iter (count_occ Nat.eq_dec schedule i) (next r (fetch i)) pc).
Proof.
  intros Hr. revert s pc.
  induction schedule as [|j schedule IH]; intros s pc Hpc; simpl; [done|].
  destruct (Nat.eq_dec j i) as [->|Hne].
  - rewrite (IH (step s i) (next r (fetch i) pc)).
    + by rewrite Nat.iter_succ_r.
    + by apply step_pcs_eq.
  - apply IH. by rewrite step_pcs_ne.
Qed.

Lemma Worker_pcs schedule i r :
  popped !! i = Some r ->
  pcs (Worker schedule) !! i
  = Some (Nat.iter (count_occ Nat.eq_dec schedule i) (next r (fetch i))
            (fst (processSlug (MetadataItem := MetadataItem) r))).
Proof.
  intros Hr. unfold Worker.
  destruct popped as [|r0 rs] eqn:Hp; [done|]. rewrite <- Hp in *.
  apply run_pcs; [done|]. by apply launched_pcs.
Qed.

(** Under a fair schedule every task settles. *)
Lemma Worker_settles schedule i pc :
  fair (length popped) schedule ->
  pcs (Worker schedule) !! i = Some pc ->
  isSettled pc = true.
Proof.
  intros Hfair Hpc.
  destruct (popped !! i) as [r|] eqn:Hr.
  - rewrite (Worker_pcs schedule i r Hr) in Hpc. injection Hpc as <-.
    apply fuel_settled.
    pose proof (fuel_iter getSingleToken r (fetch i)
                  (fst (processSlug (MetadataItem := MetadataItem) r))
                  (count_occ Nat.eq_dec schedule i)) as Hfuel.
    specialize (Hfair i (lookup_lt_Some _ _ _ Hr)).
    assert (fuel (fst (processSlug (MetadataItem := MetadataItem) r)) <= 3)%nat.
    { unfold processSlug. destruct (isSkipped r); simpl; lia. }
    lia.
  - assert (popped <> []) as Hne.
    { intros Hnil. unfold Worker in Hpc. rewrite Hnil in Hpc. done. }
    pose proof (reachable_tasks _ i (Worker_reachable schedule Hne)) as Ht.
    rewrite Hr in Ht. destruct Ht as [Ht _]. congruence.
Qed.

(** Under a fair schedule the callback does not stay suspended: it
    returns, unless a provider call was rejected without a response. *)
Lemma Worker_completes schedule :
  (forall i r, popped !! i = Some r -> isSkipped r = false ->
               fetch i <> Threw None) ->
  fair (length popped) schedule ->
  state (Worker schedule) = Completed.
Proof.
  intros Hresp Hfair.
  destruct (decide (popped = [])) as [Hnil|Hne].
  { unfold Worker. by rewrite Hnil. }
  pose proof (Worker_reachable schedule Hne) as Hs.
  pose proof (reachable_coherent _ Hs) as Hco. unfold coherent in Hco.
  destruct (state (Worker schedule)); [|done|].
  - destruct Hco as (Hrej & i & pc & Hpc & Hful).
    pose proof (Worker_settles schedule i pc Hfair Hpc) as Hset.
    destruct pc; try done. by destruct (Hrej i).
  - destruct Hco as [i Hi].
    pose proof (reachable_tasks _ i Hs) as Ht.
    destruct (popped !! i) as [r|] eqn:Hr; [|destruct Ht; congruence].
    destruct Ht as (pc & Hpc & Hreach).
    rewrite Hi in Hpc. injection Hpc as <-.
    apply reach_rejected in Hreach as [Hskip Hres].
    by destruct (Hresp i r Hr Hskip).
Qed.


(** *** The whole trace *)

Lemma Worker_task schedule i r :
  popped !! i = Some r ->
  exists pc, pcs (Worker schedule) !! i = Some pc
             /\ reach r (fetch i) pc (calls (Slug i) (trace (Worker schedule))).
Proof.
  intros Hr.
  assert (popped <> []) as Hne by (intros Hnil; by rewrite Hnil in Hr).
  pose proof (reachable_tasks _ i (Worker_reachable schedule Hne)) as Ht.
  by rewrite Hr in Ht.
Qed.

(** The tasks leave the lock, the run queue and the write queue to the
    callback. *)
Lemma reachable_task_calls (s : Invocation) i e :
  reachable s -> In (Slug i, e) (trace s) ->
  isLockCall e = false /\ (forall md, e <> WriteQueueAdd md)
  /\ (forall n, e <> PendingGet n).
Proof.
  intros Hs Hin. apply In_calls in Hin.
  pose proof (reachable_tasks s i Hs) as Ht.
  destruct (popped !! i) as [r|].
  - destruct Ht as (pc & _ & Hreach). by eapply reach_calls.
  - destruct Ht as [_ Ht]. by rewrite Ht in Hin.
Qed.

Lemma lockCalls_body_only (t : list (Caller * Event MetadataItem)) :
  (forall i e, In (Slug i, e) t -> isLockCall e = false) ->
  lockCalls t = List.filter isLockCall (calls Body t).
Proof.
  unfold lockCalls. induction t as [|[c e] t IH]; intros Ht; [done|].
  simpl. destruct (decide (c = Body)) as [->|Hne]; simpl.
  - rewrite IH; [done|]. intros i e' Hin. apply (Ht i). by right.
  - destruct c as [|i]; [done|].
    rewrite (Ht i e) by (by left). apply IH.
    intros i' e' Hin. apply (Ht i'). by right.
Qed.

Lemma reachable_lockCalls (s : Invocation) :
  reachable s ->
  lockCalls (trace s) = List.filter isLockCall (calls Body (trace s)).
Proof.
  intros Hs. apply lockCalls_body_only. intros i e Hin.
  by destruct (reachable_task_calls s i e Hs Hin).
Qed.

(** The reschedule test of line 173, read as the disjunction it
    computes on a reachable state. *)
Lemma reschedule_test (s : Invocation) :
  reachable s ->
  truthyNumber (rateLimitExpiredIn (vars s))
    || (Z.of_nat (length popped) =? countTotal) || retry (vars s) = true
  <-> (0 < rateLimitExpiredIn (vars s)
       \/ Z.of_nat (length popped) = countTotal
       \/ retry (vars s) = true).
Proof.
  intros Hs. pose proof (reachable_rateLimit_nonneg s Hs) as Hnn.
  unfold truthyNumber.
  rewrite !orb_true_iff, negb_true_iff, Z.eqb_neq, Z.eqb_eq.
  intuition lia.
Qed.

(** The lock calls of an invocation that has returned. *)
Lemma completed_lockCalls (s : Invocation) :
  reachable s -> state s = Completed ->
  lockCalls (trace s) =
    if truthyNumber (rateLimitExpiredIn (vars s))
       || (Z.of_nat (length popped) =? countTotal) || retry (vars s)
    then ExtendLock (getLockName method) (300 + rateLimitExpiredIn (vars s)) ::
         (if extended then [AddToQueue (rateLimitExpiredIn (vars s) * 1000)] else [])
    else [ReleaseLock (getLockName method)].
Proof.
  intros Hs Hst.
  rewrite (reachable_lockCalls s Hs), (reachable_body s Hs), Hst.
  unfold epilogue. simpl.
  destruct (_ || _ || _); [|done]. simpl. by destruct extended.
Qed.


(** A task that has been resumed has left its first [await]. *)
Lemma Worker_resumed schedule i :
  In i schedule -> pcs (Worker schedule) !! i <> Some AwaitFetch.
Proof.
  intros Hin. destruct (popped !! i) as [r|] eqn:Hr.
  - rewrite (Worker_pcs schedule i r Hr).
    apply (count_occ_In Nat.eq_dec) in Hin.
    destruct (count_occ Nat.eq_dec schedule i) as [|k]; [lia|].
    simpl. intros [= H]. by apply next_not_AwaitFetch in H.
  - destruct (decide (popped = [])) as [Hnil|Hne].
    { unfold Worker. by rewrite Hnil. }
    pose proof (reachable_tasks _ i (Worker_reachable schedule Hne)) as Ht.
    rewrite Hr in Ht. destruct Ht as [-> _]. done.
Qed.

Lemma Worker_snoc schedule i :
  popped <> [] -> Worker (schedule ++ [i]) = step (Worker schedule) i.
Proof. intros Hne. by rewrite Worker_app. Qed.

Lemma In_lockCalls (t : list (Caller * Event MetadataItem)) c e :
  In (c, e) t -> isLockCall e = true -> In e (lockCalls t).
Proof.
  intros Hin He. unfold lockCalls. apply filter_In. split; [|done].
  apply in_map_iff. by exists (c, e).
Qed.


#[local] Abbreviation emitted := (emitted (M := MetadataItem) getSingleToken).

(** ** The calls of a task, by number of resumptions *)

Lemma step_calls_ne (s : Invocation) i j :
  i <> j -> calls (Slug i) (trace (step s j)) = calls (Slug i) (trace s).
Proof.
  intros Hne. unfold step.
  destruct (popped !! j) as [r|]; [|done].
  destruct (pcs s !! j) as [pc|]; [|done].
  destruct (resume _ _ _ _) as [[pc' v'] es].
  rewrite settle_calls. cbn [trace].
  rewrite calls_app, calls_by_other, app_nil_r; [done|congruence].
Qed.

Lemma step_calls_eq (s : Invocation) i r pc :
  popped !! i = Some r -> pcs s !! i = Some pc ->
  calls (Slug i) (trace (step s i))
  = calls (Slug i) (trace s) ++ emits r (fetch i) pc.
Proof.
  intros Hr Hpc.
  destruct (step_eq s i r pc Hr Hpc) as (v' & _ & ->).
  rewrite settle_calls. cbn [trace]. by rewrite calls_app, calls_by_caller.
Qed.

Lemma run_calls schedule (s : Invocation) i r pc :
  popped !! i = Some r -> pcs s !! i = Some pc ->
  calls (Slug i) (trace (fold_left step schedule s))
  = calls (Slug i) (trace s)
      ++ emitted r (fetch i) (count_occ Nat.eq_dec schedule i) pc.
Proof.
  intros Hr. revert s pc.
  induction schedule as [|j schedule IH]; intros s pc Hpc; simpl.
  { by rewrite app_nil_r. }
  destruct (Nat.eq_dec j i) as [->|Hne].
  - rewrite (IH (step s i) (next r (fetch i) pc)).
    + rewrite (step_calls_eq s i r pc Hr Hpc). simpl. by rewrite app_assoc.
    + by apply step_pcs_eq.
  - rewrite (IH (step s j) pc).
    + by rewrite step_calls_ne.
    + by rewrite step_pcs_ne.
Qed.

Lemma launched_calls i r :
  popped !! i = Some r ->
  calls (Slug i) (trace (settle launched))
  = snd (processSlug (MetadataItem := MetadataItem) r).
Proof.
  intros Hr. rewrite settle_calls. unfold launched.
  pose proof (launch_calls (MetadataItem := MetadataItem) popped 0 i r Hr) as Hl.
  destruct (launch 0 popped) as [p t]. simpl in *. exact Hl.
Qed.

(** The calls of a task depend only on its request, its answer and how
    often it has been resumed. *)
Lemma Worker_calls schedule i r :
  popped !! i = Some r ->
  calls (Slug i) (trace (Worker schedule))
  = snd (processSlug r)
      ++ emitted r (fetch i) (count_occ Nat.eq_dec schedule i)
           (fst (processSlug (MetadataItem := MetadataItem) r)).
Proof.
  intros Hr. unfold Worker.
  destruct popped as [|r0 rs] eqn:Hp; [done|]. rewrite <- Hp in *.
  rewrite (run_calls schedule _ i r _ Hr (launched_pcs i r Hr)).
  by rewrite (launched_calls i r Hr).
Qed.

(** After three resumptions a task has settled, and further resumptions
    change nothing. *)
Lemma iter_next_settled r (res : FetchResult MetadataItem) pc k :
  isSettled pc = true -> Nat.iter k (next r res) pc = pc.
Proof.
  intros Hpc. induction k as [|k IH]; simpl; [done|].
  rewrite IH. by destruct (next_settled getSingleToken r res pc Hpc).
Qed.

Lemma emitted_settled r (res : FetchResult MetadataItem) pc k :
  isSettled pc = true -> emitted r res k pc = [].
Proof.
  intros Hpc. induction k as [|k IH]; simpl; [done|].
  destruct (next_settled getSingleToken r res pc Hpc) as [-> ->]. exact IH.
Qed.

Lemma iter_next_add r (res : FetchResult MetadataItem) pc a b :
  Nat.iter (a + b) (next r res) pc = Nat.iter b (next r res) (Nat.iter a (next r res) pc).
Proof.
  by rewrite Nat.add_comm, Nat.iter_add.
Qed.

Lemma emitted_add r (res : FetchResult MetadataItem) pc a b :
  emitted r res (a + b) pc
  = emitted r res a pc ++ emitted r res b (Nat.iter a (next r res) pc).
Proof.
  revert pc. induction a as [|a IH]; intros pc; [done|].
  rewrite Nat.iter_succ_r. simpl. by rewrite IH, app_assoc.
Qed.

Lemma three_resumptions r (res : FetchResult MetadataItem) pc k :
  (3 <= k)%nat ->
  Nat.iter k (next r res) pc = Nat.iter 3 (next r res) pc
  /\ emitted r res k pc = emitted r res 3 pc.
Proof.
  intros Hk. replace k with (3 + (k - 3))%nat by lia.
  assert (isSettled (Nat.iter 3 (next r res) pc) = true) as Hset.
  { apply fuel_settled.
    pose proof (fuel_iter getSingleToken r res pc 3).
    assert (fuel pc <= 3)%nat by (destruct pc; simpl; lia). lia. }
  rewrite iter_next_add, emitted_add.
  rewrite (iter_next_settled r res _ (k - 3) Hset).
  rewrite (emitted_settled r res _ (k - 3) Hset), app_nil_r. done.
Qed.



(** ** The aggregate *)

Lemma concat_insert_app {A : Type} (L : list (list A)) j c d :
  L !! j = Some c -> Permutation (concat (<[j := c ++ d]> L)) (concat L ++ d).
Proof.
  revert j. induction L as [|x L IH]; intros [|j] Hj; simpl in *; try done.
  - injection Hj as ->. rewrite <- !app_assoc.
    apply Permutation_app_head, Permutation_app_comm.
  - rewrite <- app_assoc. apply Permutation_app_head. by apply IH.
Qed.

(** What a resumed task appends to [metadata] is what it adds to its
    contribution. *)
Lemma resume_contribution r pc es (v : Closure MetadataItem) i :
  reach r (fetch i) pc es ->
  exists d,
    metadata (snd (fst (resume r (fetch i) pc v))) = metadata v ++ d
    /\ contribution (Some r) (fetch i) (next r (fetch i) pc)
       = contribution (Some r) (fetch i) pc ++ d.
Proof.
  intros Hreach. unfold next.
  destruct (isSkipped r) eqn:Hskip.
  { destruct (reach_skipped _ _ _ _ _ Hskip Hreach) as [-> _].
    exists []. simpl. rewrite Hskip, !app_nil_r. by destruct (fetch i). }
  destruct (fetch i) as [md c | [resp|]] eqn:Hres.
  - destruct md as [|m md].
    + apply reach_empty_page in Hreach; [|done].
      exists []. rewrite !app_nil_r.
      destruct Hreach as [[-> _] | [[-> _] | [[-> _] | [-> _]]]];
        simpl; by rewrite ?Hskip.
    + apply reach_page in Hreach; [|done..].
      destruct Hreach as [[-> _] | [(Hc & [-> | ->] & _) | (Hc & -> & _)]];
        simpl; rewrite ?Hc, ?Hskip; simpl; rewrite ?Hskip.
      * destruct (truthy c); simpl; rewrite ?Hskip.
        -- exists []. by rewrite !app_nil_r.
        -- by exists (m :: md).
      * by exists (m :: md).
      * exists []. by rewrite !app_nil_r.
      * exists []. by rewrite !app_nil_r.
  - apply reach_response in Hreach; [|done].
    exists []. rewrite !app_nil_r.
    destruct Hreach as [[-> _] | [(_ & [-> | ->] & _) | (_ & [-> | ->] & _)]];
      simpl; try done; by destruct (status resp =? 429).
  - apply reach_no_response in Hreach; [|done].
    destruct Hreach as [[-> | ->] _]; exists []; by rewrite !app_nil_r.
Qed.

Lemma pushedPages_insert (l : list Pc) j pc' :
  pushedPages popped fetch (<[j := pc']> l)
  = <[j := contribution (popped !! j) (fetch j) pc']> (pushedPages popped fetch l).
Proof.
  unfold pushedPages. apply list_eq. intros i.
  rewrite list_lookup_imap.
  destruct (decide (j = i)) as [->|Hne].
  - destruct (decide (i < length l)%nat) as [Hlt|Hge].
    + rewrite !list_lookup_insert_eq by (by rewrite ?length_imap). done.
    + rewrite !list_insert_ge by (rewrite ?length_imap; lia).
      by rewrite list_lookup_imap.
  - rewrite !list_lookup_insert_ne by done. by rewrite list_lookup_imap.
Qed.

(** The aggregate holds the pages of the tasks that have returned, each
    once, in the order in which they returned. *)
Lemma reachable_pushed (s : Invocation) :
  reachable s ->
  Permutation (metadata (vars s)) (concat (pushedPages popped fetch (pcs s))).
Proof.
  induction 1 as [|s j Hs IH].
  - rewrite launched_vars. simpl.
    assert (forall i x, pushedPages popped fetch (pcs (settle launched)) !! i = Some x
                        -> x = []) as Hnil.
    { intros i x. unfold pushedPages. rewrite list_lookup_imap.
      destruct (popped !! i) as [r|] eqn:Hr.
      - rewrite (launched_pcs i r Hr). simpl. intros [= <-].
        unfold processSlug. destruct (isSkipped r) eqn:Hskip; simpl;
          by destruct (fetch i).
      - destruct (pcs (settle launched) !! i); simpl; [|done].
        intros [= <-]. done. }
    revert Hnil. generalize (pushedPages popped fetch (pcs (settle launched))).
    intros L HL. induction L as [|x L IHL]; simpl; [done|].
    rewrite (HL 0%nat x eq_refl). simpl. apply IHL.
    intros i y Hy. by apply (HL (S i)).
  - pose proof (reachable_tasks s j Hs) as Ht.
    destruct (popped !! j) as [rj|] eqn:Hrj; cycle 1.
    { by rewrite step_skip by auto. }
    destruct Ht as (pcj & Hpcj & Hreach).
    rewrite (step_vars s j rj pcj Hrj Hpcj).
    destruct (step_eq s j rj pcj Hrj Hpcj) as (v' & _ & ->).
    rewrite settle_pcs. cbn [pcs].
    destruct (resume_contribution rj pcj _ (vars s) j Hreach) as (d & -> & Hd).
    rewrite pushedPages_insert, Hrj, Hd.
    rewrite concat_insert_app.
    + by apply Permutation_app_tail.
    + unfold pushedPages. by rewrite list_lookup_imap, Hpcj, Hrj.
Qed.

Lemma completed_pages (s : Invocation) :
  reachable s -> state s = Completed ->
  pushedPages popped fetch (pcs s) = pages popped fetch.
Proof.
  intros Hs Hst. pose proof (reachable_coherent s Hs) as Hco.
  unfold coherent in Hco. rewrite Hst in Hco.
  unfold pushedPages, pages. apply list_eq. intros i.
  rewrite !list_lookup_imap.
  pose proof (reachable_tasks s i Hs) as Ht.
  destruct (popped !! i) as [r|] eqn:Hr.
  - destruct Ht as (pc & Hpc & _). rewrite Hpc. simpl.
    by rewrite (Hco i pc Hpc).
  - destruct Ht as [-> _]. done.
Qed.

(** ** The state of the callback and its variables, from the tasks *)

(** Two reachable states whose tasks are at the same places agree on the
    state of the callback, on the flag and on the cooldown, and hold the
    same metadata up to order. *)
Lemma reachable_same_pcs (s s' : Invocation) :
  reachable s -> reachable s' -> pcs s = pcs s' ->
  state s = state s'
  /\ retry (vars s) = retry (vars s')
  /\ rateLimitExpiredIn (vars s) = rateLimitExpiredIn (vars s')
  /\ Permutation (metadata (vars s)) (metadata (vars s')).
Proof.
  intros Hs Hs' Hpcs.
  pose proof (reachable_coherent s Hs) as Hco.
  pose proof (reachable_coherent s' Hs') as Hco'.
  unfold coherent in *. rewrite <- Hpcs in Hco'.
  split; [|split; [|split]].
  - destruct (state s), (state s'); try done.
    + destruct Hco as (_ & i & pc & Hpc & Hne). by destruct (Hne (Hco' i pc Hpc)).
    + destruct Hco as (Hno & _), Hco' as [i Hi]. by destruct (Hno i).
    + destruct Hco' as (_ & i & pc & Hpc & Hne). by destruct (Hne (Hco i pc Hpc)).
    + destruct Hco' as [i Hi]. by discriminate (Hco i _ Hi).
    + destruct Hco' as (Hno & _), Hco as [i Hi]. by destruct (Hno i).
    + destruct Hco as [i Hi]. by discriminate (Hco' i _ Hi).
  - destruct (retry (vars s)) eqn:Hr, (retry (vars s')) eqn:Hr'; try done.
    + destruct (reachable_retry_only s Hs Hr)
        as (i & r & md & c & Hpi & Hsk & Hres & Hmd & Hc & Hpc).
      rewrite Hpcs in Hpc.
      pose proof (reachable_retry_set s' i r md c Hs' Hpi Hsk Hres Hmd Hc Hpc).
      congruence.
    + destruct (reachable_retry_only s' Hs' Hr')
        as (i & r & md & c & Hpi & Hsk & Hres & Hmd & Hc & Hpc).
      rewrite <- Hpcs in Hpc.
      pose proof (reachable_retry_set s i r md c Hs Hpi Hsk Hres Hmd Hc Hpc).
      congruence.
  - assert (forall a b : Invocation, reachable a -> reachable b -> pcs a = pcs b ->
              rateLimitExpiredIn (vars a) <= rateLimitExpiredIn (vars b)) as Hle.
    { intros a b Ha Hb Hab.
      pose proof (reachable_rateLimit_nonneg b Hb) as Hnn.
      destruct (reachable_rateLimit_only a Ha)
        as [-> | (i & r & resp & Hpi & Hsk & Hres & Hst & Hpc & ->)]; [done|].
      rewrite Hab in Hpc.
      by apply (reachable_rateLimit_lower b i r resp Hb). }
    pose proof (Hle s s' Hs Hs' Hpcs). pose proof (Hle s' s Hs' Hs (eq_sym Hpcs)).
    lia.
  - rewrite (reachable_pushed s Hs), (reachable_pushed s' Hs'). by rewrite Hpcs.
Qed.


(** ** The shape of the trace *)

Lemma launch_fetch_calls (rs : list RefreshTokenBySlug) i :
  map snd (snd (launch (MetadataItem := MetadataItem) i rs))
  = map fetchCall (List.filter (fun r => negb (isSkipped r)) rs).
Proof.
  revert i. induction rs as [|r rs IH]; intros i; [done|].
  rewrite launch_cons. cbn [snd]. rewrite map_app, IH.
  unfold processSlug. simpl. by destruct (isSkipped r).
Qed.

Lemma settle_trace (s : Invocation) :
  exists more, trace (settle s) = trace s ++ more.
Proof.
  unfold settle. repeat case_match; cbn [trace]; eauto;
    exists []; by rewrite app_nil_r.
Qed.

Lemma step_trace (s : Invocation) i :
  exists more, trace (step s i) = trace s ++ more.
Proof.
  unfold step. repeat case_match; try (exists []; by rewrite app_nil_r).
  match goal with |- context [settle ?x] => destruct (settle_trace x) as [more ->] end.
  cbn [trace]. rewrite <- app_assoc. eauto.
Qed.

(** The calls made while the tasks are started are never undone: every
    later trace extends them. *)
Lemma reachable_trace_prefix (s : Invocation) :
  reachable s -> exists more, trace s = trace launched ++ more.
Proof.
  induction 1 as [|s j Hs [more IH]].
  - apply settle_trace.
  - destruct (step_trace s j) as [more' ->]. rewrite IH, <- app_assoc. eauto.
Qed.

Lemma settle_completed (s : Invocation) :
  state s <> Completed -> state (settle s) = Completed ->
  trace (settle s) = trace s ++ by_caller Body (epilogue (vars (settle s))).
Proof.
  unfold settle. intros Hold.
  destruct (state s) eqn:Hst; [|done|by rewrite Hst].
  destruct (existsb isRejected (pcs s)); [done|].
  destruct (forallb isFulfilled (pcs s)); [done|]. by rewrite Hst.
Qed.

Lemma launched_state : state launched = AwaitAll.
Proof. unfold launched. by destruct (launch 0 popped). Qed.

(** Once the callback has returned, its last calls are the epilogue, and
    everything before is the pop and the calls of the tasks. *)
Lemma completed_trace (s : Invocation) :
  reachable s -> state s = Completed ->
  exists t,
    trace s = t ++ by_caller Body (epilogue (vars s))
    /\ calls Body t = [PendingGet countTotal].
Proof.
  intros Hs Hst.
  assert (exists t, trace s = t ++ by_caller Body (epilogue (vars s))) as [t Ht].
  { induction Hs as [|s j Hs IH].
    - rewrite settle_completed; [eauto| |done]. by rewrite launched_state.
    - destruct (decide (state s = Completed)) as [Hold|Hold].
      { pose proof (reachable_coherent s Hs) as Hco. unfold coherent in Hco.
        rewrite Hold in Hco.
        destruct (popped !! j) as [rj|] eqn:Hrj; cycle 1.
        { rewrite step_skip by auto. auto. }
        destruct (pcs s !! j) as [pcj|] eqn:Hpcj; cycle 1.
        { rewrite step_skip by auto. auto. }
        rewrite (step_settled s j pcj); [auto|done| |congruence].
        by rewrite (Hco j pcj Hpcj). }
      destruct (popped !! j) as [rj|] eqn:Hrj; cycle 1.
      { rewrite step_skip in Hst by auto. done. }
      destruct (pcs s !! j) as [pcj|] eqn:Hpcj; cycle 1.
      { rewrite step_skip in Hst by auto. done. }
      destruct (step_eq s j rj pcj Hrj Hpcj) as (v' & _ & Heq).
      rewrite Heq in Hst |- *.
      rewrite settle_completed; [eauto|done|done]. }
  exists t. split; [done|].
  pose proof (reachable_body s Hs) as Hb. rewrite Hst, Ht, calls_app in Hb.
  rewrite calls_by_caller in Hb.
  change (PendingGet countTotal :: epilogue (vars s))
    with ([PendingGet countTotal] ++ epilogue (vars s)) in Hb.
  by apply app_inv_tail in Hb.
Qed.

(** ** Fair schedules *)

Lemma Worker_fair_pcs schedule schedule' :
  fair (length popped) schedule -> fair (length popped) schedule' ->
  pcs (Worker schedule) = pcs (Worker schedule').
Proof.
  intros Hf Hf'.
  destruct (decide (popped = [])) as [Hnil|Hne].
  { unfold Worker. by rewrite Hnil. }
  apply list_eq. intros i.
  destruct (popped !! i) as [r|] eqn:Hr.
  - rewrite !(Worker_pcs _ i r Hr).
    pose proof (lookup_lt_Some _ _ _ Hr) as Hi.
    destruct (three_resumptions r (fetch i) (fst (processSlug (MetadataItem := MetadataItem) r)) _ (Hf i Hi)) as [-> _].
    destruct (three_resumptions r (fetch i) (fst (processSlug (MetadataItem := MetadataItem) r)) _ (Hf' i Hi)) as [-> _].
    done.
  - pose proof (reachable_tasks _ i (Worker_reachable schedule Hne)) as Ht.
    pose proof (reachable_tasks _ i (Worker_reachable schedule' Hne)) as Ht'.
    rewrite Hr in Ht, Ht'. destruct Ht as [-> _], Ht' as [-> _]. done.
Qed.

Lemma Worker_fair_calls schedule schedule' i :
  fair (length popped) schedule -> fair (length popped) schedule' ->
  calls (Slug i) (trace (Worker schedule))
  = calls (Slug i) (trace (Worker schedule')).
Proof.
  intros Hf Hf'.
  destruct (decide (popped = [])) as [Hnil|Hne].
  { unfold Worker. by rewrite Hnil. }
  destruct (popped !! i) as [r|] eqn:Hr.
  - rewrite !(Worker_calls _ i r Hr).
    pose proof (lookup_lt_Some _ _ _ Hr) as Hi.
    destruct (three_resumptions r (fetch i) (fst (processSlug (MetadataItem := MetadataItem) r)) _ (Hf i Hi)) as [_ ->].
    destruct (three_resumptions r (fetch i) (fst (processSlug (MetadataItem := MetadataItem) r)) _ (Hf' i Hi)) as [_ ->].
    done.
  - pose proof (reachable_tasks _ i (Worker_reachable schedule Hne)) as Ht.
    pose proof (reachable_tasks _ i (Worker_reachable schedule' Hne)) as Ht'.
    rewrite Hr in Ht, Ht'. destruct Ht as [_ ->], Ht' as [_ ->]. done.
Qed.


(** ** More on one task *)

(** A task that is not skipped makes its provider call first, and makes
    no other provider call. *)
Lemma reach_fetch_first r (res : FetchResult MetadataItem) pc es :
  isSkipped r = false -> reach r res pc es ->
  exists rest, es = fetchCall r :: rest /\ List.filter isFetch rest = [].
Proof.
  intros Hskip Hreach. induction Hreach as [|pc es _ (rest & -> & Hrest)].
  - exists []. unfold processSlug. by rewrite Hskip.
  - exists (rest ++ emits r res pc). split; [done|].
    rewrite List.filter_app, Hrest. simpl.
    unfold emits. destruct pc; simpl; try done;
      destruct res as [md c | [resp|]]; simpl; try done;
      repeat (case_match; simpl; try done).
Qed.

(** The calls of a task that has returned, by what the provider answered. *)
Lemma reach_fulfilled r (res : FetchResult MetadataItem) es :
  isSkipped r = false -> reach r res Fulfilled es ->
  match res with
  | Returned md c =>
      if (length md =? 0)%nat then
        es = [fetchCall r; GetSingleToken (collection r);
              FetchQueueAdd "full-collection" method (collection r) true;
              CollectionUpdatesAdd (contract r) (getSingleToken (collection r)) method 0]
      else if truthy c then
        es = [fetchCall r; PendingAdd (withContinuation r c) true]
      else es = [fetchCall r]
  | Threw (Some resp) =>
      if status resp =? 429 then es = [fetchCall r; PendingAdd r true]
      else es = [fetchCall r; FetchQueueAdd "full-collection" method (contract r) true]
  | Threw None => False
  end.
Proof.
  intros Hskip Hreach. destruct res as [md c | [resp|]].
  - destruct md as [|m md]; simpl.
    + apply reach_empty_page in Hreach; [|done].
      destruct Hreach as [[? _] | [[? _] | [[? _] | [_ ->]]]]; done.
    + apply reach_page in Hreach; [|done..].
      destruct Hreach as [[? _] | [(-> & _ & ->) | (-> & _ & ->)]]; done.
  - apply reach_response in Hreach; [|done].
    destruct Hreach as [[? _] | [(-> & _ & ->) | (Hst & _ & ->)]]; try done.
    apply Z.eqb_neq in Hst. by rewrite Hst.
  - apply reach_no_response in Hreach; [|done].
    by destruct Hreach as [[? | ?] _].
Qed.

(** Whatever a task pushes back to the backlog, it pushes prioritized,
    for one of two reasons, and at most once. *)
Lemma reach_pending_add r (res : FetchResult MetadataItem) pc es :
  isSkipped r = false -> reach r res pc es ->
  (length (List.filter isPendingAdd es) <= 1)%nat
  /\ forall q p, In (PendingAdd q p) es ->
       p = true
       /\ ((exists resp, res = Threw (Some resp) /\ status resp = 429 /\ q = r)
           \/ (exists md c, res = Returned md c /\ md <> [] /\ truthy c = true
                            /\ q = withContinuation r c)).
Proof.
  intros Hskip Hreach. destruct res as [md c | [resp|]].
  - destruct md as [|m md].
    + apply reach_empty_page in Hreach; [|done].
      destruct Hreach as [[_ ->] | [[_ ->] | [[_ ->] | [_ ->]]]];
        (split; [simpl; lia|]); intros q p Hin; simpl in Hin;
        repeat (destruct Hin as [Hin | Hin]; [done|]); done.
    + apply reach_page in Hreach; [|done..].
      destruct Hreach as [[_ ->] | [(Hc & _ & ->) | (_ & _ & ->)]];
        (split; [simpl; lia|]); intros q p Hin; simpl in Hin;
        repeat (destruct Hin as [Hin | Hin]; [try done|]); try done.
      injection Hin as <- <-. split; [done|]. right. by exists (m :: md), c.
  - apply reach_response in Hreach; [|done].
    destruct Hreach as [[_ ->] | [(Hst & _ & ->) | (_ & _ & ->)]];
      (split; [simpl; lia|]); intros q p Hin; simpl in Hin;
      repeat (destruct Hin as [Hin | Hin]; [try done|]); try done.
    injection Hin as <- <-. split; [done|]. left. by exists resp.
  - apply reach_no_response in Hreach as [_ ->]; [|done].
    split; [simpl; lia|]. intros q p [Hin | []]. done.
Qed.

(** ** More on whole traces *)

Lemma trace_of_body (t : list (Caller * Event MetadataItem)) :
  (forall i, calls (Slug i) t = []) -> t = by_caller Body (calls Body t).
Proof.
  induction t as [|[c e] t IH]; intros Hno; [done|].
  destruct c as [|i].
  - simpl. f_equal. apply IH. intros i. specialize (Hno i). by simpl in Hno.
  - specialize (Hno i). simpl in Hno.
    destruct (decide (Slug i = Slug i)); done.
Qed.

(** Two reachable states whose tasks are at the same places have made the
    same lock calls. *)
Lemma reachable_same_lockCalls (s s' : Invocation) :
  reachable s -> reachable s' -> pcs s = pcs s' ->
  lockCalls (trace s) = lockCalls (trace s').
Proof.
  intros Hs Hs' Hpcs.
  destruct (reachable_same_pcs s s' Hs Hs' Hpcs) as (Hst & Hretry & Hrate & _).
  rewrite !reachable_lockCalls, !reachable_body by done.
  rewrite <- Hst. destruct (state s); try done.
  unfold epilogue. simpl. by rewrite Hretry, Hrate.
Qed.

(** The lock calls of any reachable state. *)
Lemma reachable_lock_shape (s : Invocation) :
  reachable s ->
  let v := rateLimitExpiredIn (vars s) in
  (v = 0 \/ 5 <= v)
  /\ (lockCalls (trace s) = []
      \/ lockCalls (trace s) = [ReleaseLock (getLockName method)]
      \/ lockCalls (trace s) =
           ExtendLock (getLockName method) (300 + v) ::
           (if extended then [AddToQueue (v * 1000)] else [])).
Proof.
  intros Hs v. split.
  - destruct (reachable_rateLimit_only s Hs) as [? | (i & r & resp & _ & _ & _ & _ & _ & Hv)];
      [by left|right]. subst v. lia.
  - destruct (state s) eqn:Hst.
    + left. by rewrite reachable_lockCalls, reachable_body, Hst.
    + right. rewrite (completed_lockCalls s Hs Hst).
      destruct (_ || _ || _); auto.
    + left. by rewrite reachable_lockCalls, reachable_body, Hst.
Qed.

End Invocation.

(** Round-robin is fair. *)
Lemma count_occ_seq a n i :
  (a <= i < a + n)%nat -> count_occ Nat.eq_dec (seq a n) i = 1%nat.
Proof.
  revert a. induction n as [|n IH]; intros a Hi; [lia|].
  simpl. destruct (Nat.eq_dec a i) as [->|Hne].
  - f_equal. apply count_occ_not_In. rewrite in_seq. lia.
  - apply IH. lia.
Qed.

Lemma fair_roundRobin n : fair n (roundRobin n).
Proof.
  intros i Hi. unfold roundRobin.
  rewrite !count_occ_app, !count_occ_seq by lia. lia.
Qed.

(** * The scheduler *)

(** Every invocation returns when the tasks are resumed round-robin and
    every provider error carries a response. *)
Corollary Worker_roundRobin_completes {M : Type} (maxJobs : Z)
    (getSingleToken : string -> string) (popped : list RefreshTokenBySlug)
    (fetch : nat -> FetchResult M) (extended : bool) :
  (forall i r, popped !! i = Some r -> isSkipped r = false -> fetch i <> Threw None) ->
  state (Worker maxJobs getSingleToken popped fetch extended
           (roundRobin (length popped))) = Completed.
Proof.
  intros Hresp. apply Worker_completes; [done|]. apply fair_roundRobin.
Qed.

(** ** The empty batch *)

(** C6: when the backlog pop returns no request, the invocation releases
    the lock and returns at once: the pop and the release are its only
    calls, so no fetch runs, nothing is dispatched downstream and no
    further invocation is scheduled. *)
Theorem C6_empty_pop_releases_and_stops {M : Type} (maxJobs : Z)
    (getSingleToken : string -> string) (fetch : nat -> FetchResult M)
    (extended : bool) (schedule : list nat) :
  let s := Worker maxJobs getSingleToken [] fetch extended schedule in
  state s = Completed
  /\ pcs s = []
  /\ trace s = [(Body, PendingGet (countTotal maxJobs));
                (Body, ReleaseLock (getLockName method))]
  /\ forall c e, In (c, e) (trace s) ->
       isFetch e = false /\ isDispatch e = false /\ isPendingAdd e = false
       /\ (forall d, e <> AddToQueue d) /\ (forall n t, e <> ExtendLock n t).
Proof.
  simpl. do 3 (split; [done|]).
  intros c e [[= <- <-] | [[= <- <-] | []]]; repeat split; done.
Qed.

(** ** The skipped contract *)

(** C8: a popped request whose contract is the skipped one makes no call
    at all (no fetch, no re-enqueue, no downstream dispatch) and its task
    returns without an error, under every schedule. *)
Theorem C8_skipped_contract_makes_no_call {M : Type} (maxJobs : Z)
    (getSingleToken : string -> string) (popped : list RefreshTokenBySlug)
    (fetch : nat -> FetchResult M) (extended : bool) (schedule : list nat)
    (i : nat) (r : RefreshTokenBySlug) :
  popped !! i = Some r ->
  contract r = skippedContract ->
  let s := Worker maxJobs getSingleToken popped fetch extended schedule in
  calls (Slug i) (trace s) = []
  /\ pcs s !! i = Some Fulfilled
  /\ forall e, ~ In (Slug i, e) (trace s).
Proof.
  intros Hr Hc s.
  destruct (Worker_task maxJobs getSingleToken popped fetch extended schedule i r Hr)
    as (pc & Hpc & Hreach).
  assert (isSkipped r = true) as Hskip.
  { unfold isSkipped. rewrite Hc. apply String.eqb_refl. }
  destruct (reach_skipped _ _ _ _ _ Hskip Hreach) as [-> Hcalls].
  subst s. repeat split; try done.
  intros e Hin. apply In_calls in Hin. by rewrite Hcalls in Hin.
Qed.

Lemma C8_skipped_contract_witness :
  let s := Worker 5 Sample.tokenOf [Sample.skipped; Sample.alpha]
             (Sample.answers [Returned ["m0"] None; Returned ["m1"] None])
             true [0; 1]%nat in
  calls (Slug 0) (trace s) = []
  /\ pcs s !! 0%nat = Some Fulfilled
  /\ forall e, ~ In (Slug 0, e) (trace s).
Proof.
  exact (C8_skipped_contract_makes_no_call 5 Sample.tokenOf
           [Sample.skipped; Sample.alpha]
           (Sample.answers [Returned ["m0"] None; Returned ["m1"] None])
           true [0; 1]%nat 0%nat Sample.skipped eq_refl eq_refl).
Defined.

(** ** Pages *)

(** An empty page that comes with the continuation "abc" is handled as an
    unresolvable slug all the same: the refresh and the collection update
    are dispatched, nothing is re-enqueued, the flag stays clear and the
    lock is released. *)
Lemma C1_empty_page_with_continuation_counterexample :
  let s := Worker 5 Sample.tokenOf [Sample.alpha]
             (Sample.answers [Returned [] (Some "abc")]) true [0; 0; 0]%nat in
  state s = Completed
  /\ trace s =
       [(Body, PendingGet 5);
        (Slug 0, GetTokensMetadataBySlug "0xaa" "alpha" "opensea" None);
        (Slug 0, GetSingleToken "0xaa");
        (Slug 0, FetchQueueAdd "full-collection" "opensea" "0xaa" true);
        (Slug 0, CollectionUpdatesAdd "0xaa" "1" "opensea" 0);
        (Body, WriteQueueAdd []);
        (Body, ReleaseLock Sample.lock)]
  /\ retry (vars s) = false
  /\ ~ handledAsContinuation s 0 Sample.alpha "abc".
Proof.
  repeat split; try reflexivity.
  intros (Hrefresh & _). apply (Hrefresh "full-collection" "opensea" "0xaa" true).
  vm_compute. auto 10.
Qed.

(** C1, amended: a page with empty metadata is handled as an unresolvable
    slug whether or not it carries a continuation: the task never
    re-enqueues the request, once it has returned it has dispatched the
    full-collection refresh and the collection-metadata update, and it does
    not set the flag, which is only ever set for a request whose page is
    not empty and has a continuation. A page that is not empty dispatches
    nothing downstream from its task. *)
Theorem C1_empty_page_is_unresolvable {M : Type} (maxJobs : Z)
    (getSingleToken : string -> string) (popped : list RefreshTokenBySlug)
    (fetch : nat -> FetchResult M) (extended : bool) (schedule : list nat)
    (i : nat) (r : RefreshTokenBySlug) (md : list M) (c : option string) :
  popped !! i = Some r ->
  isSkipped r = false ->
  fetch i = Returned md c ->
  let s := Worker maxJobs getSingleToken popped fetch extended schedule in
  (md = [] ->
     (forall q p, ~ In (Slug i, PendingAdd q p) (trace s))
     /\ (pcs s !! i = Some Fulfilled ->
         calls (Slug i) (trace s) =
           [GetTokensMetadataBySlug (contract r) (slug r) method (continuation r);
            GetSingleToken (collection r);
            FetchQueueAdd "full-collection" method (collection r) true;
            CollectionUpdatesAdd (contract r) (getSingleToken (collection r)) method 0])
     /\ (retry (vars s) = true ->
         exists j r' md' c',
           j <> i /\ popped !! j = Some r' /\ fetch j = Returned md' c'
           /\ md' <> [] /\ truthy c' = true))
  /\ (md <> [] -> forall e, In (Slug i, e) (trace s) -> isDispatch e = false).
Proof.
  intros Hr Hskip Hres s.
  destruct (Worker_task maxJobs getSingleToken popped fetch extended schedule i r Hr)
    as (pc & Hpc & Hreach).
  fold s in Hpc, Hreach. rewrite Hres in Hreach.
  assert (popped <> []) as Hne by (intros Hnil; by rewrite Hnil in Hr).
  split.
  - intros ->. apply reach_empty_page in Hreach; [|done].
    simpl in Hreach. repeat split.
    + intros q p Hin. apply In_calls in Hin.
      destruct Hreach as [[_ He] | [[_ He] | [[_ He] | [_ He]]]];
        rewrite He in Hin; simpl in Hin;
        repeat (destruct Hin as [Hin | Hin]; [done|]); done.
    + intros Hful. rewrite Hful in Hpc. injection Hpc as <-.
      destruct Hreach as [[? _] | [[? _] | [[? _] | [_ He]]]]; done.
    + intros Hretry.
      destruct (reachable_retry_only maxJobs getSingleToken popped fetch extended s
                  (Worker_reachable _ _ _ _ _ schedule Hne) Hretry)
        as (j & r' & md' & c' & Hr' & _ & Hres' & Hmd' & Hc' & _).
      exists j, r', md', c'. repeat split; try done.
      intros ->. rewrite Hres in Hres'. by injection Hres' as <- _.
  - intros Hmd e Hin. apply In_calls in Hin.
    apply reach_page in Hreach; [|done..]. simpl in Hreach.
    destruct Hreach as [[_ He] | [(_ & _ & He) | (_ & _ & He)]];
      rewrite He in Hin; simpl in Hin;
      repeat (destruct Hin as [<- | Hin]; [done|]); done.
Qed.

Lemma C1_empty_page_witness :
  let s := Worker 5 Sample.tokenOf [Sample.alpha; Sample.beta]
             (Sample.answers [Returned [] (Some "abc"); Returned ["m1"] (Some "page2")])
             true [1; 0; 0; 1; 0]%nat in
  calls (Slug 0) (trace s) =
    [GetTokensMetadataBySlug "0xaa" "alpha" "opensea" None;
     GetSingleToken "0xaa";
     FetchQueueAdd "full-collection" "opensea" "0xaa" true;
     CollectionUpdatesAdd "0xaa" "1" "opensea" 0]
  /\ forall q p, ~ In (Slug 0, PendingAdd q p) (trace s).
Proof.
  pose proof (C1_empty_page_is_unresolvable 5 Sample.tokenOf
                [Sample.alpha; Sample.beta]
                (Sample.answers [Returned [] (Some "abc"); Returned ["m1"] (Some "page2")])
                true [1; 0; 0; 1; 0]%nat 0%nat Sample.alpha [] (Some "abc")
                eq_refl eq_refl eq_refl) as [Hempty _].
  destruct (Hempty eq_refl) as (Hnone & Hcalls & _).
  split; [apply Hcalls; reflexivity | exact Hnone].
Defined.

(** A request that resumes at "page1" gets an empty page with the
    continuation "page2": nothing at all is pushed back to the backlog, so
    there is no re-queued request and the continuation is dropped. *)
Lemma C5_continuation_of_empty_page_counterexample :
  let s := Worker 5 Sample.tokenOf [Sample.beta]
             (Sample.answers [Returned [] (Some "page2")]) true [0; 0; 0]%nat in
  Sample.answers [Returned [] (Some "page2")] 0%nat = Returned [] (Some "page2")
  /\ state s = Completed
  /\ pcs s = [Fulfilled]
  /\ (forall c q p, ~ In (c, PendingAdd q p) (trace s))
  /\ ~ (exists q, In (Slug 0, PendingAdd q true) (trace s)
                  /\ slug q = slug Sample.beta
                  /\ contract q = contract Sample.beta
                  /\ collection q = collection Sample.beta
                  /\ continuation q = Some "page2").
Proof.
  assert (forall c q p,
            ~ In (c, PendingAdd q p)
                (trace (Worker 5 Sample.tokenOf [Sample.beta]
                          (Sample.answers [Returned [] (Some "page2")])
                          true [0; 0; 0]%nat))) as Hnone.
  { intros c q p Hin. vm_compute in Hin.
    repeat (destruct Hin as [Hin | Hin]; [discriminate Hin|]). exact Hin. }
  repeat split; try reflexivity; [exact Hnone|].
  intros (q & Hin & _). exact (Hnone _ _ _ Hin).
Qed.

(** C5, amended: for a request whose fetch yields metadata that is not
    empty together with a non-empty continuation, exactly one request is
    pushed back to the backlog once the page is handled: it has the slug,
    contract and collection of the original request and the newly returned
    continuation, and it is pushed prioritized; the flag is then set.
    Whatever the page, any request its task pushes back has this shape,
    and none is pushed for a page without metadata or continuation. *)
Theorem C5_requeue_carries_new_continuation {M : Type} (maxJobs : Z)
    (getSingleToken : string -> string) (popped : list RefreshTokenBySlug)
    (fetch : nat -> FetchResult M) (extended : bool) (schedule : list nat)
    (i : nat) (r : RefreshTokenBySlug) (md : list M) (c : option string) :
  popped !! i = Some r ->
  isSkipped r = false ->
  fetch i = Returned md c ->
  let s := Worker maxJobs getSingleToken popped fetch extended schedule in
  (forall q p, In (Slug i, PendingAdd q p) (trace s) ->
     slug q = slug r /\ contract q = contract r /\ collection q = collection r
     /\ continuation q = c /\ p = true /\ md <> [] /\ truthy c = true)
  /\ (md <> [] -> truthy c = true -> pcs s !! i <> Some AwaitFetch ->
      calls (Slug i) (trace s) =
        [GetTokensMetadataBySlug (contract r) (slug r) method (continuation r);
         PendingAdd
           {| slug := slug r; contract := contract r;
              collection := collection r; continuation := c |} true]
      /\ retry (vars s) = true).
Proof.
  intros Hr Hskip Hres s.
  destruct (Worker_task maxJobs getSingleToken popped fetch extended schedule i r Hr)
    as (pc & Hpc & Hreach).
  fold s in Hpc, Hreach. rewrite Hres in Hreach.
  assert (popped <> []) as Hne by (intros Hnil; by rewrite Hnil in Hr).
  split.
  - intros q p Hin. apply In_calls in Hin.
    destruct md as [|m md].
    + apply reach_empty_page in Hreach; [|done]. simpl in Hreach.
      destruct Hreach as [[_ He] | [[_ He] | [[_ He] | [_ He]]]];
        rewrite He in Hin; simpl in Hin;
        repeat (destruct Hin as [Hin | Hin]; [done|]); done.
    + apply reach_page in Hreach; [|done..]. simpl in Hreach.
      destruct Hreach as [[_ He] | [(Hc & _ & He) | (_ & _ & He)]];
        rewrite He in Hin; simpl in Hin;
        repeat (destruct Hin as [Hin | Hin]; [try done|]); try done.
      injection Hin as <- <-. done.
  - intros Hmd Hc Hleft. split.
    + apply reach_page in Hreach; [|done..]. simpl in Hreach.
      destruct Hreach as [[-> _] | [(_ & _ & He) | (Hc' & _ & _)]];
        [done|exact He|congruence].
    + by apply (reachable_retry_set maxJobs getSingleToken popped fetch extended
                  s i r md c (Worker_reachable _ _ _ _ _ schedule Hne)).
Qed.

Lemma C5_requeue_witness :
  let s := Worker 5 Sample.tokenOf [Sample.alpha; Sample.beta]
             (Sample.answers [Returned ["m0"] None; Returned ["m1"] (Some "page2")])
             true [1; 0; 1]%nat in
  calls (Slug 1) (trace s) =
    [GetTokensMetadataBySlug "0xbb" "beta" "opensea" (Some "page1");
     PendingAdd (mkRefreshTokenBySlug "beta" "0xbb" "0xbb:1:100" (Some "page2")) true]
  /\ retry (vars s) = true.
Proof.
  pose proof (C5_requeue_carries_new_continuation 5 Sample.tokenOf
                [Sample.alpha; Sample.beta]
                (Sample.answers [Returned ["m0"] None; Returned ["m1"] (Some "page2")])
                true [1; 0; 1]%nat 1%nat Sample.beta ["m1"] (Some "page2")
                eq_refl eq_refl eq_refl) as [_ Hpage].
  apply Hpage; [discriminate | reflexivity | vm_compute; discriminate].
Defined.

(** ** Rate limits *)

(** C4: when the task of a request is resumed with a 429 response, the
    cooldown becomes the maximum of the previous cooldown, the provider's
    [expires_in] and 5, the other closure variables are left alone, and
    the task pushes the original request, continuation included, back to
    the backlog prioritized and makes no other call. From then on the
    cooldown is at least [max expires_in 5]: at least 5 for [expires_in =
    2] and at least 30 for [expires_in = 30]. *)
Theorem C4_rate_limit_cooldown_and_requeue {M : Type} (maxJobs : Z)
    (getSingleToken : string -> string) (popped : list RefreshTokenBySlug)
    (fetch : nat -> FetchResult M) (extended : bool) (schedule : list nat)
    (i : nat) (r : RefreshTokenBySlug) (resp : Response) :
  popped !! i = Some r ->
  fetch i = Threw (Some resp) ->
  status resp = 429 ->
  let s := Worker maxJobs getSingleToken popped fetch extended schedule in
  pcs s !! i = Some AwaitFetch ->
  let s' := Worker maxJobs getSingleToken popped fetch extended (schedule ++ [i]) in
  rateLimitExpiredIn (vars s')
  = Z.max (Z.max (rateLimitExpiredIn (vars s)) (expires_in resp)) 5
  /\ retry (vars s') = retry (vars s)
  /\ metadata (vars s') = metadata (vars s)
  /\ forall rest,
       let s'' := Worker maxJobs getSingleToken popped fetch extended
                    (schedule ++ i :: rest) in
       calls (Slug i) (trace s'') =
         [GetTokensMetadataBySlug (contract r) (slug r) method (continuation r);
          PendingAdd r true]
       /\ Z.max (expires_in resp) 5 <= rateLimitExpiredIn (vars s'')
       /\ (expires_in resp = 2 -> 5 <= rateLimitExpiredIn (vars s''))
       /\ (expires_in resp = 30 -> 30 <= rateLimitExpiredIn (vars s'')).
Proof.
  intros Hr Hres Hst s Hpc s'.
  assert (popped <> []) as Hne by (intros Hnil; by rewrite Hnil in Hr).
  assert (isSkipped r = false) as Hskip.
  { destruct (isSkipped r) eqn:Hskip; [|done].
    destruct (Worker_task maxJobs getSingleToken popped fetch extended schedule i r Hr)
      as (pc & Hpc' & Hreach).
    destruct (reach_skipped _ _ _ _ _ Hskip Hreach) as [-> _].
    fold s in Hpc'. congruence. }
  assert (vars s' = mkClosure (retry (vars s))
                      (Z.max (Z.max (rateLimitExpiredIn (vars s)) (expires_in resp)) 5)
                      (metadata (vars s))) as Hv.
  { subst s'. rewrite Worker_snoc by done. fold s.
    rewrite (step_vars _ _ _ _ _ s i r AwaitFetch Hr Hpc), Hres. simpl.
    by rewrite Hst. }
  rewrite Hv. do 3 (split; [done|]). intros rest s''.
  assert (pcs s'' !! i <> Some AwaitFetch) as Hleft.
  { apply Worker_resumed. rewrite in_app_iff. right. by left. }
  assert (Z.max (expires_in resp) 5 <= rateLimitExpiredIn (vars s'')) as Hlow.
  { by apply (reachable_rateLimit_lower maxJobs getSingleToken popped fetch extended
                s'' i r resp (Worker_reachable _ _ _ _ _ _ Hne)). }
  split; [|split; [done | split; lia]].
  destruct (Worker_task maxJobs getSingleToken popped fetch extended
              (schedule ++ i :: rest) i r Hr) as (pc & Hpc'' & Hreach).
  fold s'' in Hpc'', Hreach. rewrite Hres in Hreach.
  apply reach_response in Hreach; [|done]. simpl in Hreach.
  destruct Hreach as [[-> _] | [(_ & _ & He) | (Hno & _)]]; done.
Qed.

Lemma C4_rate_limit_witness :
  let s' := Worker 5 Sample.tokenOf [Sample.beta; Sample.alpha]
              (Sample.answers [Threw (Some (mkResponse 429 2));
                               Threw (Some (mkResponse 429 30))])
              true ([] ++ [0%nat]) in
  rateLimitExpiredIn (vars s') = 5
  /\ forall rest,
       let s'' := Worker 5 Sample.tokenOf [Sample.beta; Sample.alpha]
                    (Sample.answers [Threw (Some (mkResponse 429 2));
                                     Threw (Some (mkResponse 429 30))])
                    true ([] ++ 0%nat :: rest) in
       calls (Slug 0) (trace s'') =
         [GetTokensMetadataBySlug "0xbb" "beta" "opensea" (Some "page1");
          PendingAdd Sample.beta true]
       /\ 5 <= rateLimitExpiredIn (vars s'').
Proof.
  pose proof (C4_rate_limit_cooldown_and_requeue 5 Sample.tokenOf
                [Sample.beta; Sample.alpha]
                (Sample.answers [Threw (Some (mkResponse 429 2));
                                 Threw (Some (mkResponse 429 30))])
                true [] 0%nat Sample.beta (mkResponse 429 2)
                eq_refl eq_refl eq_refl eq_refl) as (Hcool & _ & _ & Hrest).
  split; [exact Hcool|].
  intros rest. destruct (Hrest rest) as (Hcalls & _ & Hfive & _).
  split; [exact Hcalls | exact (Hfive eq_refl)].
Defined.

(** ** Rescheduling *)

(** C3: once the invocation has returned (every task has settled and none
    has made the callback throw), it asks for another run if and only if
    the cooldown is positive, or as many requests were popped as the batch
    size, or the flag is set. In that case its only lock call is
    [extendLock] with 300 seconds plus the cooldown, followed, only when
    the extension succeeded, by the enqueue of the next run with the
    cooldown as delay ([addToQueue] takes it in milliseconds); otherwise
    its only lock call is the release. The batch size is taken to be at
    least one. *)
Theorem C3_reschedule_decision {M : Type} (maxJobs : Z)
    (getSingleToken : string -> string) (popped : list RefreshTokenBySlug)
    (fetch : nat -> FetchResult M) (extended : bool) (schedule : list nat) :
  0 < maxJobs ->
  let s := Worker maxJobs getSingleToken popped fetch extended schedule in
  state s = Completed ->
  let cooldown := rateLimitExpiredIn (vars s) in
  let again := 0 < cooldown
               \/ Z.of_nat (length popped) = countTotal maxJobs
               \/ retry (vars s) = true in
  (again ->
     lockCalls (trace s) =
       ExtendLock (getLockName method) (300 + cooldown) ::
       (if extended then [AddToQueue (cooldown * 1000)] else []))
  /\ (~ again -> lockCalls (trace s) = [ReleaseLock (getLockName method)]).
Proof.
  intros Hmax s Hst cooldown again.
  destruct (decide (popped = [])) as [Hnil|Hne].
  { subst s again cooldown. rewrite Hnil. simpl. unfold countTotal, count.
    split; [|done]. intros [? | [? | ?]]; [lia | lia | done]. }
  pose proof (Worker_reachable maxJobs getSingleToken popped fetch extended
                schedule Hne) as Hs. fold s in Hs.
  pose proof (completed_lockCalls _ _ _ _ _ s Hs Hst) as Hlock.
  pose proof (reschedule_test _ _ _ _ _ s Hs) as Htest.
  destruct (_ || _ || _).
  - split; [done|]. intros Hno. destruct Hno. by apply Htest.
  - split; [|done]. intros Hyes. apply Htest in Hyes. done.
Qed.

Lemma C3_reschedule_witness :
  let s := Worker 5 Sample.tokenOf [Sample.alpha]
             (Sample.answers [Threw (Some (mkResponse 429 20))]) true [0; 0]%nat in
  rateLimitExpiredIn (vars s) = 20
  /\ lockCalls (trace s) = [ExtendLock Sample.lock 320; AddToQueue 20000].
Proof.
  pose proof (C3_reschedule_decision 5 Sample.tokenOf [Sample.alpha]
                (Sample.answers [Threw (Some (mkResponse 429 20))]) true [0; 0]%nat
                eq_refl eq_refl) as [Hagain _].
  split; [reflexivity|].
  apply Hagain. left. reflexivity.
Defined.

(** C7: when the reschedule condition holds and [extendLock] reports
    failure, the invocation returns after that call: it enqueues no further
    run and does not release the lock. *)
Theorem C7_failed_extend_stops {M : Type} (maxJobs : Z)
    (getSingleToken : string -> string) (popped : list RefreshTokenBySlug)
    (fetch : nat -> FetchResult M) (schedule : list nat) :
  let s := Worker maxJobs getSingleToken popped fetch false schedule in
  popped <> [] ->
  state s = Completed ->
  (0 < rateLimitExpiredIn (vars s)
   \/ Z.of_nat (length popped) = countTotal maxJobs
   \/ retry (vars s) = true) ->
  lockCalls (trace s) =
    [ExtendLock (getLockName method) (300 + rateLimitExpiredIn (vars s))]
  /\ (forall c d, ~ In (c, AddToQueue d) (trace s))
  /\ (forall c n, ~ In (c, ReleaseLock n) (trace s)).
Proof.
  intros s Hne Hst Hagain.
  pose proof (Worker_reachable maxJobs getSingleToken popped fetch false
                schedule Hne) as Hs. fold s in Hs.
  pose proof (completed_lockCalls _ _ _ _ _ s Hs Hst) as Hlock.
  apply (reschedule_test _ _ _ _ _ s Hs) in Hagain.
  rewrite Hagain in Hlock.
  split; [done|]. split.
  - intros c d Hin. apply In_lockCalls in Hin; [|done].
    rewrite Hlock in Hin. by destruct Hin as [? | []].
  - intros c n Hin. apply In_lockCalls in Hin; [|done].
    rewrite Hlock in Hin. by destruct Hin as [? | []].
Qed.

Lemma C7_failed_extend_witness :
  let s := Worker 5 Sample.tokenOf [Sample.beta]
             (Sample.answers [Returned ["m1"] (Some "page2")]) false [0; 0]%nat in
  lockCalls (trace s) = [ExtendLock Sample.lock 300]
  /\ (forall c d, ~ In (c, AddToQueue d) (trace s))
  /\ (forall c n, ~ In (c, ReleaseLock n) (trace s)).
Proof.
  apply (C7_failed_extend_stops 5 Sample.tokenOf [Sample.beta]
           (Sample.answers [Returned ["m1"] (Some "page2")]) [0; 0]%nat).
  - discriminate.
  - reflexivity.
  - right. right. reflexivity.
Defined.

(** ** Errors *)

(** C2: a provider error that carries no response makes the task itself
    reject, because the [catch] block reads [error.response.data] on line
    133; [Promise.all] then rejects and the callback throws. Whatever the
    schedule, an invocation with such a request never returns: its only
    call is the backlog pop, so the aggregate of the sibling requests is
    never handed to the write queue and the lock is neither extended nor
    released; as soon as the task has been resumed the invocation has
    failed. *)
Theorem C2_error_without_response_fails_invocation {M : Type} (maxJobs : Z)
    (getSingleToken : string -> string) (popped : list RefreshTokenBySlug)
    (fetch : nat -> FetchResult M) (extended : bool) (schedule : list nat)
    (i : nat) (r : RefreshTokenBySlug) :
  popped !! i = Some r ->
  isSkipped r = false ->
  fetch i = Threw None ->
  let s := Worker maxJobs getSingleToken popped fetch extended schedule in
  state s <> Completed
  /\ calls Body (trace s) = [PendingGet (countTotal maxJobs)]
  /\ (forall c e, In (c, e) (trace s) ->
        isLockCall e = false /\ forall md, e <> WriteQueueAdd md)
  /\ (In i schedule ->
        state s = Failed /\ pcs s !! i = Some RejectedTypeError).
Proof.
  intros Hr Hskip Hres s.
  assert (popped <> []) as Hne by (intros Hnil; by rewrite Hnil in Hr).
  pose proof (Worker_reachable maxJobs getSingleToken popped fetch extended
                schedule Hne) as Hs. fold s in Hs.
  pose proof (reachable_coherent _ _ _ _ _ s Hs) as Hco.
  pose proof (reachable_body _ _ _ _ _ s Hs) as Hbody.
  destruct (Worker_task maxJobs getSingleToken popped fetch extended schedule i r Hr)
    as (pc & Hpc & Hreach).
  fold s in Hpc, Hreach. rewrite Hres in Hreach.
  apply reach_no_response in Hreach as [Hpc' _]; [|done].
  assert (state s <> Completed) as Hst.
  { intros Hst. unfold coherent in Hco. rewrite Hst in Hco.
    specialize (Hco i pc Hpc). destruct Hpc'; congruence. }
  assert (calls Body (trace s) = [PendingGet (countTotal maxJobs)]) as Hb.
  { rewrite Hbody. by destruct (state s). }
  split; [done|]. split; [done|]. split.
  - intros [|j] e Hin.
    + apply In_calls in Hin. rewrite Hb in Hin.
      destruct Hin as [<- | []]. done.
    + destruct (reachable_task_calls _ _ _ _ _ s j e Hs Hin) as (? & ? & _). done.
  - intros Hin.
    pose proof (Worker_resumed maxJobs getSingleToken popped fetch extended
                  schedule i Hin) as Hleft. fold s in Hleft.
    assert (pc = RejectedTypeError) as -> by (destruct Hpc'; congruence).
    split; [|done]. unfold coherent in Hco.
    destruct (state s); [|done..].
    destruct Hco as [Hrej _]. by destruct (Hrej i).
Qed.

(** A network error on the first of two requests, after the second has
    returned its page: the page sits in the closure, and nothing but the
    pop was called by the callback. *)
Lemma C2_error_without_response_witness :
  let s := Worker 5 Sample.tokenOf [Sample.alpha; Sample.gamma]
             (Sample.answers [Threw None; Returned ["m1"] None])
             true [1; 0]%nat in
  metadata (vars s) = ["m1"]
  /\ pcs s = [RejectedTypeError; Fulfilled]
  /\ state s = Failed
  /\ calls Body (trace s) = [PendingGet 5]
  /\ (forall c e, In (c, e) (trace s) ->
        isLockCall e = false /\ forall md, e <> WriteQueueAdd md).
Proof.
  destruct (C2_error_without_response_fails_invocation 5 Sample.tokenOf
              [Sample.alpha; Sample.gamma]
              (Sample.answers [Threw None; Returned ["m1"] None])
              true [1; 0]%nat 0%nat Sample.alpha eq_refl eq_refl eq_refl)
    as (_ & Hbody & Hnone & Hfail).
  split; [reflexivity|]. split; [reflexivity|].
  split; [apply Hfail; right; left; reflexivity|].
  split; [exact Hbody | exact Hnone].
Defined.


(** ** The collection field of a full-collection refresh *)

(** C10: every full-collection refresh dispatched for a request whose
    fetch raised an error other than a rate limit carries the contract
    address of the request in its collection field, and one is dispatched
    as soon as an error that has a response is handled; every
    full-collection refresh dispatched for a request whose page is empty
    carries the collection identifier of the request, and one has been
    dispatched once the task has returned. *)
Theorem C10_refresh_collection_field {M : Type} (maxJobs : Z)
    (getSingleToken : string -> string) (popped : list RefreshTokenBySlug)
    (fetch : nat -> FetchResult M) (extended : bool) (schedule : list nat)
    (i : nat) (r : RefreshTokenBySlug) :
  popped !! i = Some r ->
  isSkipped r = false ->
  let s := Worker maxJobs getSingleToken popped fetch extended schedule in
  (forall response,
     fetch i = Threw response ->
     (forall resp, response = Some resp -> status resp <> 429) ->
     (forall k m col p, In (Slug i, FetchQueueAdd k m col p) (trace s) ->
        k = "full-collection" /\ m = method /\ col = contract r /\ p = true)
     /\ (is_Some response -> pcs s !! i <> Some AwaitFetch ->
         calls (Slug i) (trace s) =
           [GetTokensMetadataBySlug (contract r) (slug r) method (continuation r);
            FetchQueueAdd "full-collection" method (contract r) true]))
  /\ (forall c,
        fetch i = Returned [] c ->
        (forall k m col p, In (Slug i, FetchQueueAdd k m col p) (trace s) ->
           k = "full-collection" /\ m = method /\ col = collection r /\ p = true)
        /\ (pcs s !! i = Some Fulfilled ->
            In (Slug i, FetchQueueAdd "full-collection" method (collection r) true)
              (trace s))).
Proof.
  intros Hr Hskip s.
  destruct (Worker_task maxJobs getSingleToken popped fetch extended schedule i r Hr)
    as (pc & Hpc & Hreach).
  fold s in Hpc, Hreach. split.
  - intros response Hres Hstatus. rewrite Hres in Hreach.
    destruct response as [resp|].
    + specialize (Hstatus resp eq_refl).
      apply reach_response in Hreach; [|done]. simpl in Hreach. split.
      * intros k m col p Hin. apply In_calls in Hin.
        destruct Hreach as [[_ He] | [(Hno & _) | (_ & _ & He)]]; [|done|];
          rewrite He in Hin; simpl in Hin;
          repeat (destruct Hin as [Hin | Hin]; [try done|]); try done.
        by injection Hin as <- <- <- <-.
      * intros _ Hleft.
        destruct Hreach as [[-> _] | [(Hno & _) | (_ & _ & He)]]; done.
    + apply reach_no_response in Hreach as [_ He]; [|done]. split.
      * intros k m col p Hin. apply In_calls in Hin.
        rewrite He in Hin. by destruct Hin as [? | []].
      * by intros [? ?].
  - intros c Hres. rewrite Hres in Hreach.
    apply reach_empty_page in Hreach; [|done]. simpl in Hreach. split.
    + intros k m col p Hin. apply In_calls in Hin.
      destruct Hreach as [[_ He] | [[_ He] | [[_ He] | [_ He]]]];
        rewrite He in Hin; simpl in Hin;
        repeat (destruct Hin as [Hin | Hin]; [try done|]); try done;
        by injection Hin as <- <- <- <-.
    + intros Hful. apply In_calls. rewrite Hful in Hpc. injection Hpc as <-.
      destruct Hreach as [[? _] | [[? _] | [[? _] | [_ ->]]]]; try done.
      simpl. auto.
Qed.

(** The same request, whose collection identifier differs from its
    contract address, on the two paths: a server error sends the contract,
    an empty page sends the collection identifier. *)
Lemma C10_refresh_collection_field_witness :
  calls (Slug 0)
    (trace (Worker 5 Sample.tokenOf [Sample.beta]
              (Sample.answers [Threw (Some (mkResponse 500 0))]) true [0; 0]%nat))
  = [GetTokensMetadataBySlug "0xbb" "beta" "opensea" (Some "page1");
     FetchQueueAdd "full-collection" "opensea" "0xbb" true]
  /\ In (Slug 0, FetchQueueAdd "full-collection" "opensea" "0xbb:1:100" true)
       (trace (Worker 5 Sample.tokenOf [Sample.beta]
                 (Sample.answers [Returned [] None]) true [0; 0; 0]%nat)).
Proof.
  split.
  - destruct (C10_refresh_collection_field 5 Sample.tokenOf [Sample.beta]
                (Sample.answers [Threw (Some (mkResponse 500 0))]) true [0; 0]%nat
                0%nat Sample.beta eq_refl eq_refl) as [Herror _].
    destruct (Herror (Some (mkResponse 500 0)) eq_refl) as [_ Hcalls].
    + intros resp [= <-]. discriminate.
    + apply Hcalls; [by eexists | vm_compute; discriminate].
  - destruct (C10_refresh_collection_field 5 Sample.tokenOf [Sample.beta]
                (Sample.answers [Returned [] None]) true [0; 0; 0]%nat
                0%nat Sample.beta eq_refl eq_refl) as [_ Hempty].
    destruct (Hempty None eq_refl) as [_ Hin].
    apply Hin. reflexivity.
Defined.

(** ** Scenarios *)

(** Three requests with a fan-out of five, all with a page and no
    continuation: one aggregate dispatch with the three pages, in the order
    in which the tasks returned, and the lock is released. *)
Example scenario_three_pages :
  trace (Worker 5 Sample.tokenOf [Sample.alpha; Sample.beta; Sample.gamma]
           (Sample.answers [Returned ["a1"; "a2"] None; Returned ["b1"] None;
                            Returned ["c1"] None])
           true [2; 0; 1]%nat)
  = [(Body, PendingGet 5);
     (Slug 0, GetTokensMetadataBySlug "0xaa" "alpha" "opensea" None);
     (Slug 1, GetTokensMetadataBySlug "0xbb" "beta" "opensea" (Some "page1"));
     (Slug 2, GetTokensMetadataBySlug "0xcc" "gamma" "opensea" None);
     (Body, WriteQueueAdd ["c1"; "a1"; "a2"; "b1"]);
     (Body, ReleaseLock Sample.lock)].
Proof. reflexivity. Qed.

(** One request that is rate limited for 20 seconds: it is pushed back as
    it was, the lock is extended for 320 seconds and the next run is
    enqueued 20000 milliseconds later. *)
Example scenario_rate_limited :
  trace (Worker 5 Sample.tokenOf [Sample.beta]
           (Sample.answers [Threw (Some (mkResponse 429 20))]) true [0; 0]%nat)
  = [(Body, PendingGet 5);
     (Slug 0, GetTokensMetadataBySlug "0xbb" "beta" "opensea" (Some "page1"));
     (Slug 0, PendingAdd Sample.beta true);
     (Body, WriteQueueAdd []);
     (Body, ExtendLock Sample.lock 320);
     (Body, AddToQueue 20000)].
Proof. reflexivity. Qed.

(** One request whose page is empty and has no continuation. *)
Example scenario_unresolvable_slug :
  trace (Worker 5 Sample.tokenOf [Sample.beta]
           (Sample.answers [Returned [] None]) true (roundRobin 1))
  = [(Body, PendingGet 5);
     (Slug 0, GetTokensMetadataBySlug "0xbb" "beta" "opensea" (Some "page1"));
     (Slug 0, GetSingleToken "0xbb:1:100");
     (Slug 0, FetchQueueAdd "full-collection" "opensea" "0xbb:1:100" true);
     (Slug 0, CollectionUpdatesAdd "0xbb" "1" "opensea" 0);
     (Body, WriteQueueAdd []);
     (Body, ReleaseLock Sample.lock)].
Proof. reflexivity. Qed.

(** A full batch asks for another run even when nothing is left. *)
Example scenario_full_batch :
  lockCalls
    (trace (Worker 2 Sample.tokenOf [Sample.alpha; Sample.gamma]
              (Sample.answers [Returned ["a1"] None; Returned ["c1"] None])
              true (roundRobin 2)))
  = [ExtendLock Sample.lock 300; AddToQueue 0].
Proof. reflexivity. Qed.

(** * Further properties of the worker *)

(** ** Provider calls *)

(** X1: a request that is not skipped gets exactly one provider call per
    invocation, made with its own contract, slug and continuation and the
    method "opensea", before any other call of its task; the worker never
    calls the provider a second time for it, whatever the answer. *)
Theorem one_provider_call_per_request {M : Type} (maxJobs : Z)
    (getSingleToken : string -> string) (popped : list RefreshTokenBySlug)
    (fetch : nat -> FetchResult M) (extended : bool) (schedule : list nat)
    (i : nat) (r : RefreshTokenBySlug) :
  popped !! i = Some r ->
  isSkipped r = false ->
  let s := Worker maxJobs getSingleToken popped fetch extended schedule in
  exists rest,
    calls (Slug i) (trace s)
    = GetTokensMetadataBySlug (contract r) (slug r) "opensea" (continuation r) :: rest
    /\ List.filter isFetch rest = [].
Proof.
  intros Hr Hskip s.
  destruct (Worker_task maxJobs getSingleToken popped fetch extended schedule i r Hr)
    as (pc & _ & Hreach).
  exact (reach_fetch_first getSingleToken r (fetch i) pc _ Hskip Hreach).
Qed.

Lemma one_provider_call_witness :
  exists rest,
    calls (Slug 0)
      (trace (Worker 5 Sample.tokenOf [Sample.beta]
                (Sample.answers [Threw (Some (mkResponse 429 7))]) true [0; 0]%nat))
    = GetTokensMetadataBySlug "0xbb" "beta" "opensea" (Some "page1") :: rest
    /\ List.filter isFetch rest = [].
Proof.
  exact (one_provider_call_per_request 5 Sample.tokenOf [Sample.beta]
           (Sample.answers [Threw (Some (mkResponse 429 7))]) true [0; 0]%nat
           0%nat Sample.beta eq_refl eq_refl).
Defined.

(** X2: the provider calls of the whole batch are made right after the
    pop, one per request that is not skipped and in batch order, before
    any answer is handled: whatever the schedule, the trace starts with
    them. *)
Theorem provider_calls_start_first {M : Type} (maxJobs : Z)
    (getSingleToken : string -> string) (popped : list RefreshTokenBySlug)
    (fetch : nat -> FetchResult M) (extended : bool) (schedule : list nat) :
  popped <> [] ->
  let s := Worker maxJobs getSingleToken popped fetch extended schedule in
  exists rest,
    map snd (trace s)
    = PendingGet (countTotal maxJobs)
        :: map fetchCall (List.filter (fun r => negb (isSkipped r)) popped)
        ++ rest.
Proof.
  intros Hne s.
  destruct (reachable_trace_prefix maxJobs getSingleToken popped fetch extended s
              (Worker_reachable _ _ _ _ _ schedule Hne)) as [more Hmore].
  exists (map snd more). rewrite Hmore, map_app. unfold launched.
  pose proof (launch_fetch_calls (MetadataItem := M) popped 0) as Hl.
  destruct (launch 0 popped) as [p t]. simpl in *. by rewrite Hl.
Qed.

Lemma provider_calls_start_first_witness :
  exists rest,
    map snd
      (trace (Worker 5 Sample.tokenOf [Sample.alpha; Sample.skipped; Sample.beta]
                (Sample.answers [Returned ["a1"] None; Threw None; Threw None])
                true [2; 0]%nat))
    = PendingGet 5
        :: [GetTokensMetadataBySlug "0xaa" "alpha" "opensea" None;
            GetTokensMetadataBySlug "0xbb" "beta" "opensea" (Some "page1")]
        ++ rest.
Proof.
  apply (provider_calls_start_first 5 Sample.tokenOf
           [Sample.alpha; Sample.skipped; Sample.beta]
           (Sample.answers [Returned ["a1"] None; Threw None; Threw None])
           true [2; 0]%nat).
  discriminate.
Defined.

(** ** Requests pushed back *)

(** X3: a task pushes at most one request back to the backlog, always
    prioritized, and only for a 429 answer (the request as it was) or for
    a page with metadata and a continuation (the request with the new
    continuation); never after another error or an empty page. *)
Theorem at_most_one_push_back {M : Type} (maxJobs : Z)
    (getSingleToken : string -> string) (popped : list RefreshTokenBySlug)
    (fetch : nat -> FetchResult M) (extended : bool) (schedule : list nat)
    (i : nat) (r : RefreshTokenBySlug) :
  popped !! i = Some r ->
  let s := Worker maxJobs getSingleToken popped fetch extended schedule in
  (length (List.filter isPendingAdd (calls (Slug i) (trace s))) <= 1)%nat
  /\ forall q p, In (Slug i, PendingAdd q p) (trace s) ->
       p = true
       /\ ((exists resp, fetch i = Threw (Some resp) /\ status resp = 429 /\ q = r)
           \/ (exists md c, fetch i = Returned md c /\ md <> [] /\ truthy c = true
                            /\ q = withContinuation r c)).
Proof.
  intros Hr s.
  destruct (Worker_task maxJobs getSingleToken popped fetch extended schedule i r Hr)
    as (pc & _ & Hreach). fold s in Hreach.
  destruct (isSkipped r) eqn:Hskip.
  - destruct (reach_skipped _ _ _ _ _ Hskip Hreach) as [_ He].
    rewrite He. split; [simpl; lia|].
    intros q p Hin. apply In_calls in Hin. by rewrite He in Hin.
  - destruct (reach_pending_add getSingleToken r (fetch i) pc _ Hskip Hreach)
      as [Hlen Hshape].
    split; [done|]. intros q p Hin. apply Hshape. by apply In_calls.
Qed.

Lemma at_most_one_push_back_witness :
  let s := Worker 5 Sample.tokenOf [Sample.beta]
             (Sample.answers [Returned ["m1"] (Some "page2")]) true [0; 0]%nat in
  (length (List.filter isPendingAdd (calls (Slug 0) (trace s))) <= 1)%nat
  /\ In (Slug 0, PendingAdd (withContinuation Sample.beta (Some "page2")) true)
       (trace s).
Proof.
  destruct (at_most_one_push_back 5 Sample.tokenOf [Sample.beta]
              (Sample.answers [Returned ["m1"] (Some "page2")]) true [0; 0]%nat
              0%nat Sample.beta eq_refl) as [Hlen _].
  split; [exact Hlen|]. vm_compute. auto.
Defined.

(** X4: the calls of a request whose task has returned, by what the
    provider answered: an empty page gives the token lookup, the
    full-collection refresh and the collection update; a page with a
    continuation gives one push back; a last page gives nothing more; a
    429 gives one push back of the request; another error with a response
    gives the full-collection refresh; and a task whose error has no
    response never returns. *)
Theorem calls_of_returned_request {M : Type} (maxJobs : Z)
    (getSingleToken : string -> string) (popped : list RefreshTokenBySlug)
    (fetch : nat -> FetchResult M) (extended : bool) (schedule : list nat)
    (i : nat) (r : RefreshTokenBySlug) :
  popped !! i = Some r ->
  isSkipped r = false ->
  let s := Worker maxJobs getSingleToken popped fetch extended schedule in
  pcs s !! i = Some Fulfilled ->
  let es := calls (Slug i) (trace s) in
  match fetch i with
  | Returned md c =>
      if (length md =? 0)%nat then
        es = [fetchCall r; GetSingleToken (collection r);
              FetchQueueAdd "full-collection" method (collection r) true;
              CollectionUpdatesAdd (contract r) (getSingleToken (collection r)) method 0]
      else if truthy c then
        es = [fetchCall r; PendingAdd (withContinuation r c) true]
      else es = [fetchCall r]
  | Threw (Some resp) =>
      if status resp =? 429 then es = [fetchCall r; PendingAdd r true]
      else es = [fetchCall r; FetchQueueAdd "full-collection" method (contract r) true]
  | Threw None => False
  end.
Proof.
  intros Hr Hskip s Hful es.
  destruct (Worker_task maxJobs getSingleToken popped fetch extended schedule i r Hr)
    as (pc & Hpc & Hreach). fold s in Hpc, Hreach.
  rewrite Hful in Hpc. injection Hpc as <-.
  exact (reach_fulfilled getSingleToken r (fetch i) _ Hskip Hreach).
Qed.

Lemma calls_of_returned_request_witness :
  calls (Slug 1)
    (trace (Worker 5 Sample.tokenOf [Sample.alpha; Sample.gamma]
              (Sample.answers [Returned ["a1"] None; Threw (Some (mkResponse 503 0))])
              true [1; 0; 1]%nat))
  = [fetchCall Sample.gamma; FetchQueueAdd "full-collection" method "0xcc" true].
Proof.
  exact (calls_of_returned_request 5 Sample.tokenOf [Sample.alpha; Sample.gamma]
           (Sample.answers [Returned ["a1"] None; Threw (Some (mkResponse 503 0))])
           true [1; 0; 1]%nat 1%nat Sample.gamma eq_refl eq_refl eq_refl).
Defined.

(** ** The closure variables *)

(** X5: at any point of an invocation the cooldown is the largest
    [max expires_in 5] among the rate-limited answers handled so far, and 0
    when none has been handled; so it is never between 1 and 4. *)
Theorem cooldown_is_largest_rate_limit {M : Type} (maxJobs : Z)
    (getSingleToken : string -> string) (popped : list RefreshTokenBySlug)
    (fetch : nat -> FetchResult M) (extended : bool) (schedule : list nat) :
  let s := Worker maxJobs getSingleToken popped fetch extended schedule in
  let v := rateLimitExpiredIn (vars s) in
  let handled i resp :=
    exists r, popped !! i = Some r /\ isSkipped r = false
              /\ fetch i = Threw (Some resp) /\ status resp = 429
              /\ pcs s !! i <> Some AwaitFetch in
  (forall i resp, handled i resp -> Z.max (expires_in resp) 5 <= v)
  /\ ((exists i resp, handled i resp /\ v = Z.max (expires_in resp) 5)
      \/ (v = 0 /\ forall i resp, ~ handled i resp))
  /\ (v = 0 \/ 5 <= v).
Proof.
  intros s v handled.
  destruct (decide (popped = [])) as [Hnil|Hne].
  { subst s v handled. rewrite Hnil. simpl. split; [|split; [right; split|]]; auto.
    - intros i resp (r & Hr & _). done.
    - intros i resp (r & Hr & _). done. }
  pose proof (Worker_reachable maxJobs getSingleToken popped fetch extended
                schedule Hne) as Hs. fold s in Hs.
  assert (forall i resp, handled i resp -> Z.max (expires_in resp) 5 <= v) as Hlow.
  { intros i resp (r & Hr & Hskip & Hres & Hst & Hpc).
    by apply (reachable_rateLimit_lower maxJobs getSingleToken popped fetch extended
                s i r resp Hs). }
  split; [done|].
  destruct (reachable_rateLimit_only _ _ _ _ _ s Hs)
    as [H0 | (i & r & resp & Hr & Hskip & Hres & Hst & Hpc & Hv)].
  - split; [|by left]. right. split; [done|].
    intros i resp Hh. specialize (Hlow i resp Hh). subst v. lia.
  - split; [|right; subst v; lia]. left. exists i, resp. split; [|done].
    by exists r.
Qed.

(** X6: at any point of an invocation the flag is set exactly when the
    answer of some request that is not skipped has been handled and was a
    page with metadata and a non-empty continuation. *)
Theorem retry_flag_iff_next_page_seen {M : Type} (maxJobs : Z)
    (getSingleToken : string -> string) (popped : list RefreshTokenBySlug)
    (fetch : nat -> FetchResult M) (extended : bool) (schedule : list nat) :
  let s := Worker maxJobs getSingleToken popped fetch extended schedule in
  retry (vars s) = true
  <-> exists i r md c,
        popped !! i = Some r /\ isSkipped r = false
        /\ fetch i = Returned md c /\ md <> [] /\ truthy c = true
        /\ pcs s !! i <> Some AwaitFetch.
Proof.
  intros s.
  destruct (decide (popped = [])) as [Hnil|Hne].
  { subst s. rewrite Hnil. simpl. split; [done|].
    by intros (i & r & md & c & Hr & _). }
  pose proof (Worker_reachable maxJobs getSingleToken popped fetch extended
                schedule Hne) as Hs. fold s in Hs.
  split.
  - apply (reachable_retry_only maxJobs getSingleToken popped fetch extended s Hs).
  - intros (i & r & md & c & Hr & Hskip & Hres & Hmd & Hc & Hpc).
    by apply (reachable_retry_set maxJobs getSingleToken popped fetch extended
                s i r md c Hs).
Qed.

(** ** The aggregate *)

(** X7: when the callback returns on a batch that is not empty, the write
    queue is called by the callback only, with the aggregate, and the
    aggregate is a rearrangement of the pages returned for the requests
    that are not skipped: no item is lost and none is duplicated. *)
Theorem aggregate_is_all_pages {M : Type} (maxJobs : Z)
    (getSingleToken : string -> string) (popped : list RefreshTokenBySlug)
    (fetch : nat -> FetchResult M) (extended : bool) (schedule : list nat) :
  popped <> [] ->
  let s := Worker maxJobs getSingleToken popped fetch extended schedule in
  state s = Completed ->
  (forall c md, In (c, WriteQueueAdd md) (trace s)
                <-> c = Body /\ md = metadata (vars s))
  /\ Permutation (metadata (vars s)) (concat (pages popped fetch)).
Proof.
  intros Hne s Hst.
  pose proof (Worker_reachable maxJobs getSingleToken popped fetch extended
                schedule Hne) as Hs. fold s in Hs.
  split.
  - intros c md. split.
    + intros Hin. destruct c as [|i].
      * split; [done|]. apply In_calls in Hin.
        rewrite (reachable_body _ _ _ _ _ s Hs), Hst in Hin.
        unfold epilogue in Hin. rewrite map_id in Hin.
        destruct Hin as [Hin | [Hin | Hin]]; [done|by injection Hin|].
        destruct (_ || _ || _); [|by destruct Hin as [? | []]].
        destruct Hin as [Hin | Hin]; [done|].
        destruct extended; [by destruct Hin as [? | []] | done].
      * destruct (reachable_task_calls _ _ _ _ _ s i _ Hs Hin) as (_ & Hno & _).
        by destruct (Hno md).
    + intros [-> ->]. apply In_calls.
      rewrite (reachable_body _ _ _ _ _ s Hs), Hst. right. left.
      by rewrite map_id.
  - rewrite (reachable_pushed _ _ _ _ _ s Hs).
    by rewrite (completed_pages _ _ _ _ _ s Hs Hst).
Qed.

Lemma aggregate_is_all_pages_witness :
  let s := Worker 5 Sample.tokenOf [Sample.alpha; Sample.beta; Sample.gamma]
             (Sample.answers [Returned ["a1"; "a2"] None; Returned ["b1"] None;
                              Returned ["c1"] None])
             true [2; 0; 1]%nat in
  metadata (vars s) = ["c1"; "a1"; "a2"; "b1"]
  /\ Permutation (metadata (vars s)) ["a1"; "a2"; "b1"; "c1"].
Proof.
  split; [reflexivity|].
  apply (aggregate_is_all_pages 5 Sample.tokenOf
           [Sample.alpha; Sample.beta; Sample.gamma]
           (Sample.answers [Returned ["a1"; "a2"] None; Returned ["b1"] None;
                            Returned ["c1"] None])
           true [2; 0; 1]%nat); [discriminate | reflexivity].
Defined.

(** X8: when the callback returns on a batch that is not empty, the write
    of the aggregate and then the lock calls are the last calls of the
    trace: every call of every task comes before them, and nothing before
    them touches the write queue or the lock. *)
Theorem write_then_lock_come_last {M : Type} (maxJobs : Z)
    (getSingleToken : string -> string) (popped : list RefreshTokenBySlug)
    (fetch : nat -> FetchResult M) (extended : bool) (schedule : list nat) :
  popped <> [] ->
  let s := Worker maxJobs getSingleToken popped fetch extended schedule in
  state s = Completed ->
  exists before,
    trace s = before
              ++ (Body, WriteQueueAdd (metadata (vars s)))
              :: map (fun e => (Body, e)) (lockCalls (trace s))
    /\ (forall i, calls (Slug i) before = calls (Slug i) (trace s))
    /\ (forall c e, In (c, e) before ->
          isLockCall e = false /\ forall md, e <> WriteQueueAdd md).
Proof.
  intros Hne s Hst.
  pose proof (Worker_reachable maxJobs getSingleToken popped fetch extended
                schedule Hne) as Hs. fold s in Hs.
  destruct (completed_trace _ _ _ _ _ s Hs Hst) as (t & Ht & Hbody).
  exists t. split; [|split].
  - rewrite (completed_lockCalls _ _ _ _ _ s Hs Hst).
    rewrite Ht at 1. f_equal. unfold epilogue, by_caller. by rewrite map_id.
  - intros i. rewrite Ht, calls_app, calls_by_other, app_nil_r; done.
  - intros c e Hin. destruct c as [|i].
    + apply In_calls in Hin. rewrite Hbody in Hin.
      destruct Hin as [<- | []]. done.
    + assert (In (Slug i, e) (trace s)) as Hin'.
      { rewrite Ht. apply in_or_app. by left. }
      destruct (reachable_task_calls _ _ _ _ _ s i e Hs Hin') as (? & ? & _). done.
Qed.

Lemma write_then_lock_come_last_witness :
  let s := Worker 5 Sample.tokenOf [Sample.beta]
             (Sample.answers [Threw (Some (mkResponse 429 20))]) true [0; 0]%nat in
  exists before,
    trace s = before
              ++ (Body, WriteQueueAdd (metadata (vars s)))
              :: map (fun e => (Body, e)) (lockCalls (trace s))
    /\ (forall i, calls (Slug i) before = calls (Slug i) (trace s))
    /\ (forall c e, In (c, e) before ->
          isLockCall e = false /\ forall md, e <> WriteQueueAdd md).
Proof.
  apply (write_then_lock_come_last 5 Sample.tokenOf [Sample.beta]
           (Sample.answers [Threw (Some (mkResponse 429 20))]) true [0; 0]%nat);
    [discriminate | reflexivity].
Defined.

(** ** Schedules *)




(** X11: the outcome of an invocation does not depend on the order in
    which the answers arrive: two schedules that let every task run to its
    end leave every task at the same place with the same calls, the
    callback in the same state, the same flag and cooldown, hence the same
    lock calls, and the same aggregate up to the order of its items. *)
Theorem outcome_independent_of_schedule {M : Type} (maxJobs : Z)
    (getSingleToken : string -> string) (popped : list RefreshTokenBySlug)
    (fetch : nat -> FetchResult M) (extended : bool)
    (schedule schedule' : list nat) :
  fair (length popped) schedule ->
  fair (length popped) schedule' ->
  let s := Worker maxJobs getSingleToken popped fetch extended schedule in
  let s' := Worker maxJobs getSingleToken popped fetch extended schedule' in
  pcs s = pcs s'
  /\ (forall i, calls (Slug i) (trace s) = calls (Slug i) (trace s'))
  /\ state s = state s'
  /\ retry (vars s) = retry (vars s')
  /\ rateLimitExpiredIn (vars s) = rateLimitExpiredIn (vars s')
  /\ lockCalls (trace s) = lockCalls (trace s')
  /\ Permutation (metadata (vars s)) (metadata (vars s')).
Proof.
  intros Hf Hf' s s'.
  destruct (decide (popped = [])) as [Hnil|Hne].
  { subst s s'. rewrite Hnil. simpl. repeat split; done. }
  pose proof (Worker_reachable maxJobs getSingleToken popped fetch extended
                schedule Hne) as Hs. fold s in Hs.
  pose proof (Worker_reachable maxJobs getSingleToken popped fetch extended
                schedule' Hne) as Hs'. fold s' in Hs'.
  pose proof (Worker_fair_pcs maxJobs getSingleToken popped fetch extended
                schedule schedule' Hf Hf') as Hpcs. fold s s' in Hpcs.
  destruct (reachable_same_pcs _ _ _ _ _ s s' Hs Hs' Hpcs) as (Hst & Hr & Hv & Hm).
  split; [done|]. split.
  { intros i. by apply Worker_fair_calls. }
  split; [done|]. split; [done|]. split; [done|]. split; [|done].
  by apply (reachable_same_lockCalls maxJobs getSingleToken popped fetch extended).
Qed.

Lemma outcome_independent_of_schedule_witness :
  let s := Worker 5 Sample.tokenOf [Sample.alpha; Sample.beta]
             (Sample.answers [Returned ["a1"] None; Returned ["b1"] (Some "page2")])
             true [0; 1; 0; 1; 0; 1]%nat in
  let s' := Worker 5 Sample.tokenOf [Sample.alpha; Sample.beta]
              (Sample.answers [Returned ["a1"] None; Returned ["b1"] (Some "page2")])
              true [1; 1; 1; 0; 0; 0]%nat in
  metadata (vars s) = ["a1"; "b1"]
  /\ metadata (vars s') = ["b1"; "a1"]
  /\ lockCalls (trace s) = lockCalls (trace s')
  /\ Permutation (metadata (vars s)) (metadata (vars s')).
Proof.
  assert (forall sched, (forall i, (i < 2)%nat ->
                           (3 <= count_occ Nat.eq_dec sched i)%nat) ->
                        fair 2 sched) as Hfair by (intros sched H; exact H).
  destruct (outcome_independent_of_schedule 5 Sample.tokenOf
              [Sample.alpha; Sample.beta]
              (Sample.answers [Returned ["a1"] None; Returned ["b1"] (Some "page2")])
              true [0; 1; 0; 1; 0; 1]%nat [1; 1; 1; 0; 0; 0]%nat)
    as (_ & _ & _ & _ & _ & Hlock & Hperm).
  - apply Hfair. intros [|[|i]] Hi; [vm_compute; lia | vm_compute; lia | lia].
  - apply Hfair. intros [|[|i]] Hi; [vm_compute; lia | vm_compute; lia | lia].
  - split; [reflexivity|]. split; [reflexivity|]. split; [exact Hlock | exact Hperm].
Defined.

(** X12: what a task does depends on nothing but its own request, its own
    answer and how often it has been resumed: in two invocations, with
    whatever other requests, answers, batch size and lock answer, the task
    of the same request at the same position with the same answer and the
    same number of resumptions is at the same place and has made the same
    calls. *)
Theorem task_independent_of_siblings {M : Type} (maxJobs maxJobs' : Z)
    (getSingleToken : string -> string) (popped popped' : list RefreshTokenBySlug)
    (fetch fetch' : nat -> FetchResult M) (extended extended' : bool)
    (schedule schedule' : list nat) (i : nat) (r : RefreshTokenBySlug) :
  popped !! i = Some r ->
  popped' !! i = Some r ->
  fetch i = fetch' i ->
  count_occ Nat.eq_dec schedule i = count_occ Nat.eq_dec schedule' i ->
  let s := Worker maxJobs getSingleToken popped fetch extended schedule in
  let s' := Worker maxJobs' getSingleToken popped' fetch' extended' schedule' in
  pcs s !! i = pcs s' !! i
  /\ calls (Slug i) (trace s) = calls (Slug i) (trace s').
Proof.
  intros Hr Hr' Hres Hcount s s'. subst s s'.
  rewrite (Worker_pcs maxJobs getSingleToken popped fetch extended schedule i r Hr).
  rewrite (Worker_pcs maxJobs' getSingleToken popped' fetch' extended' schedule' i r Hr').
  rewrite (Worker_calls maxJobs getSingleToken popped fetch extended schedule i r Hr).
  rewrite (Worker_calls maxJobs' getSingleToken popped' fetch' extended' schedule' i r Hr').
  by rewrite Hres, Hcount.
Qed.

Lemma task_independent_of_siblings_witness :
  calls (Slug 0)
    (trace (Worker 5 Sample.tokenOf [Sample.beta; Sample.alpha]
              (Sample.answers [Returned ["b1"] (Some "page2"); Threw None])
              true [1; 0; 0]%nat))
  = calls (Slug 0)
      (trace (Worker 1 Sample.tokenOf [Sample.beta]
                (Sample.answers [Returned ["b1"] (Some "page2")])
                false [0; 0]%nat)).
Proof.
  apply (task_independent_of_siblings 5 1 Sample.tokenOf
           [Sample.beta; Sample.alpha] [Sample.beta]
           (Sample.answers [Returned ["b1"] (Some "page2"); Threw None])
           (Sample.answers [Returned ["b1"] (Some "page2")])
           true false [1; 0; 0]%nat [0; 0]%nat 0%nat Sample.beta);
    reflexivity.
Defined.

(** ** Edge cases of the batch *)

(** X13: a batch in which every request has the skipped contract is
    consumed without a single provider, backlog or downstream call for its
    requests: the callback returns at once, writes an empty aggregate, and
    then releases the lock, or, when the batch was full, extends it for
    300 seconds and enqueues the next run without delay. *)
Theorem all_skipped_batch {M : Type} (maxJobs : Z)
    (getSingleToken : string -> string) (popped : list RefreshTokenBySlug)
    (fetch : nat -> FetchResult M) (extended : bool) (schedule : list nat) :
  popped <> [] ->
  (forall i r, popped !! i = Some r -> isSkipped r = true) ->
  let s := Worker maxJobs getSingleToken popped fetch extended schedule in
  state s = Completed
  /\ trace s =
       (Body, PendingGet (countTotal maxJobs))
       :: (Body, WriteQueueAdd [])
       :: (if Z.of_nat (length popped) =? countTotal maxJobs
           then (Body, ExtendLock (getLockName method) 300)
                :: (if extended then [(Body, AddToQueue 0)] else [])
           else [(Body, ReleaseLock (getLockName method))]).
Proof.
  intros Hne Hall s.
  pose proof (Worker_reachable maxJobs getSingleToken popped fetch extended
                schedule Hne) as Hs. fold s in Hs.
  assert (forall i, calls (Slug i) (trace s) = []
                    /\ forall pc, pcs s !! i = Some pc -> pc = Fulfilled) as Htasks.
  { intros i. pose proof (reachable_tasks _ _ _ _ _ s i Hs) as Ht.
    destruct (popped !! i) as [r|] eqn:Hr.
    - destruct Ht as (pc & Hpc & Hreach).
      destruct (reach_skipped _ _ _ _ _ (Hall i r Hr) Hreach) as [-> ->].
      split; [done|]. intros pc. rewrite Hpc. by intros [= <-].
    - destruct Ht as [-> ->]. done. }
  assert (state s = Completed) as Hst.
  { pose proof (reachable_coherent _ _ _ _ _ s Hs) as Hco. unfold coherent in Hco.
    destruct (state s); [|done|].
    - destruct Hco as (_ & i & pc & Hpc & Hno).
      by destruct (Hno (proj2 (Htasks i) pc Hpc)).
    - destruct Hco as [i Hi]. by discriminate (proj2 (Htasks i) _ Hi). }
  split; [done|].
  assert (retry (vars s) = false) as Hretry.
  { destruct (retry (vars s)) eqn:Hr; [|done].
    destruct (reachable_retry_only _ _ _ _ _ s Hs Hr)
      as (i & r & md & c & Hpi & Hsk & _).
    rewrite (Hall i r Hpi) in Hsk. done. }
  assert (rateLimitExpiredIn (vars s) = 0) as Hrate.
  { destruct (reachable_rateLimit_only _ _ _ _ _ s Hs)
      as [? | (i & r & resp & Hpi & Hsk & _)]; [done|].
    rewrite (Hall i r Hpi) in Hsk. done. }
  assert (metadata (vars s) = []) as Hmeta.
  { destruct (metadata (vars s)) as [|m l] eqn:Hm; [done|].
    destruct (reachable_metadata_only _ _ _ _ _ s m Hs)
      as (i & r & md & c & Hpi & Hsk & _).
    - rewrite Hm. by left.
    - rewrite (Hall i r Hpi) in Hsk. done. }
  rewrite (trace_of_body (trace s)) by (intros i; apply Htasks).
  rewrite (reachable_body _ _ _ _ _ s Hs), Hst.
  unfold epilogue. rewrite Hretry, Hrate, Hmeta. simpl.
  rewrite orb_false_r. do 2 f_equal.
  destruct (_ =? _); [|done]. by destruct extended.
Qed.

Lemma all_skipped_batch_witness :
  trace (Worker 2 Sample.tokenOf [Sample.skipped; Sample.skipped]
           (Sample.answers []) true [0; 1; 5]%nat)
  = [(Body, PendingGet 2); (Body, WriteQueueAdd []);
     (Body, ExtendLock Sample.lock 300); (Body, AddToQueue 0)].
Proof.
  apply (all_skipped_batch 2 Sample.tokenOf [Sample.skipped; Sample.skipped]
           (Sample.answers []) true [0; 1; 5]%nat).
  - discriminate.
  - intros [|[|i]] r [= <-]; reflexivity.
Defined.

(** ** The lock *)

(** X14: over a whole invocation, for every batch, answers and schedule,
    the lock and the run queue are used in one of three ways only: not at
    all, while the callback has not returned; one release; or one
    extension of the lock of the method for 300 seconds plus the cooldown,
    followed, exactly when the extension succeeded, by one enqueue delayed
    by the cooldown in milliseconds. The cooldown is 0 or at least 5, so a
    run is enqueued either at once or at least five seconds later, and the
    lock is never both extended and released. *)
Theorem lock_calls_shape {M : Type} (maxJobs : Z)
    (getSingleToken : string -> string) (popped : list RefreshTokenBySlug)
    (fetch : nat -> FetchResult M) (extended : bool) (schedule : list nat) :
  let s := Worker maxJobs getSingleToken popped fetch extended schedule in
  let v := rateLimitExpiredIn (vars s) in
  (v = 0 \/ 5 <= v)
  /\ ((state s <> Completed /\ lockCalls (trace s) = [])
      \/ (state s = Completed
          /\ lockCalls (trace s) = [ReleaseLock (getLockName "opensea")])
      \/ (state s = Completed
          /\ lockCalls (trace s) =
               ExtendLock (getLockName "opensea") (300 + v) ::
               (if extended then [AddToQueue (v * 1000)] else []))).
Proof.
  intros s v.
  destruct (decide (popped = [])) as [Hnil|Hne].
  { subst s v. rewrite Hnil. simpl. split; [by left|]. right. left. done. }
  pose proof (Worker_reachable maxJobs getSingleToken popped fetch extended
                schedule Hne) as Hs. fold s in Hs.
  destruct (reachable_lock_shape _ _ _ _ _ s Hs) as [Hv _].
  split; [exact Hv|].
  destruct (state s) eqn:Hst.
  - left. split; [done|].
    by rewrite (reachable_lockCalls _ _ _ _ _ s Hs), (reachable_body _ _ _ _ _ s Hs), Hst.
  - right. rewrite (completed_lockCalls _ _ _ _ _ s Hs Hst).
    destruct (_ || _ || _); auto.
  - left. split; [done|].
    by rewrite (reachable_lockCalls _ _ _ _ _ s Hs), (reachable_body _ _ _ _ _ s Hs), Hst.
Qed.

(** * Saving orders *)

Section SaveOrders.
Import Orders.
Variable E : Env.

Lemma loop_app k orders queries :
  loop E k orders queries = queries ++ loop E k orders [].
Proof.
  revert k queries. induction orders as [|o orders IH]; intros k queries; simpl.
  - by rewrite app_nil_r.
  - rewrite (IH (S k) (queries ++ queriesOf E k o)), (IH (S k) (queriesOf E k o)).
    by rewrite app_assoc.
Qed.

Lemma loop_cons k o orders :
  loop E k (o :: orders) [] = queriesOf E k o ++ loop E (S k) orders [].
Proof. simpl. apply loop_app. Qed.

(** What one order adds to the batch: nothing, or the creation of its
    token set, possibly the insertion of the tokens of the set, and then
    its row. *)
Lemma queriesOf_shape k o :
  queriesOf E k o = []
  \/ exists t ins more,
       queriesOf E k o = ins :: more ++ [UpsertOrder (orderValues E k o t)]
       /\ createsTokenSet ins = Some (id t)
       /\ upsertsOf (ins :: more) = []
       /\ (length more <= 1)%nat.
Proof.
  unfold queriesOf. destruct (extractOrderInfo E o) as [info|]; [|by left].
  unfold tokenSetOf. destruct info as [tokenId | range | ].
  - right. eexists _, _, _. split; [simpl; reflexivity|].
    split; [done|]. destruct (tokenSetTokensExists E k _); simpl; split; done || lia.
  - destruct (findCollection E k _ _) as [c|]; [|by left].
    right. eexists _, _, _. split; [simpl; reflexivity|].
    split; [done|]. destruct (tokenSetTokensExists E k _); simpl; split; done || lia.
  - destruct (findCollection E k _ _) as [c|]; [|by left].
    right. eexists _, _, _. split; [simpl; reflexivity|].
    split; [done|]. destruct (tokenSetTokensExists E k _); simpl; split; done || lia.
Qed.

Lemma upsertsOf_app qs qs' : upsertsOf (qs ++ qs') = upsertsOf qs ++ upsertsOf qs'.
Proof. apply omap_app. Qed.

Lemma upsertsOf_queriesOf k o :
  upsertsOf (queriesOf E k o) = []
  \/ exists t, upsertsOf (queriesOf E k o) = [orderValues E k o t].
Proof.
  destruct (queriesOf_shape k o) as [-> | (t & ins & more & -> & _ & Hnone & _)];
    [by left|right].
  exists t. rewrite app_comm_cons, upsertsOf_app, Hnone. done.
Qed.

Lemma In_upsertsOf v qs : In v (upsertsOf qs) <-> In (UpsertOrder v) qs.
Proof.
  unfold upsertsOf. induction qs as [|q qs IH]; simpl; [done|].
  destruct q; simpl; rewrite IH; split; try tauto;
    try (intros [? | ?]; [done | tauto]).
  - intros [-> | ?]; tauto.
  - intros [[= ->] | ?]; tauto.
Qed.

(** Every row of a batch was built from one of the orders. *)
Lemma loop_upsert k orders v :
  In (UpsertOrder v) (loop E k orders []) ->
  exists i o t, orders !! i = Some o /\ v = orderValues E (k + i) o t.
Proof.
  revert k. induction orders as [|o orders IH]; intros k; [done|].
  rewrite loop_cons, in_app_iff. intros [Hin | Hin].
  - apply In_upsertsOf in Hin.
    destruct (upsertsOf_queriesOf k o) as [Hn | [t Ht]].
    + by rewrite Hn in Hin.
    + rewrite Ht in Hin. destruct Hin as [<- | []].
      exists 0%nat, o, t. by rewrite Nat.add_0_r.
  - destruct (IH (S k) Hin) as (i & o' & t & Hi & ->).
    exists (S i), o', t. split; [done|]. f_equal. lia.
Qed.


(** The rows of a batch are rows of the orders, in their order, at most
    one for each. *)
Lemma loop_sublist k orders :
  sublist (map hash (upsertsOf (loop E k orders []))) (map prefixHash orders).
Proof.
  revert k. induction orders as [|o orders IH]; intros k; [constructor|].
  rewrite loop_cons, upsertsOf_app, map_app. simpl.
  destruct (upsertsOf_queriesOf k o) as [-> | [t ->]]; simpl.
  - by apply sublist_cons.
  - by apply sublist_skip.
Qed.

Lemma setsFirst_app qs qs' : setsFirst qs -> setsFirst qs' -> setsFirst (qs ++ qs').
Proof.
  intros H H' n v Hn. apply lookup_app_Some in Hn as [Hn | [Hlen Hn]].
  - destruct (H n v Hn) as (m & q & Hm & Hq & Hc).
    exists m, q. split; [done|]. split; [|done]. by apply lookup_app_l_Some.
  - destruct (H' _ v Hn) as (m & q & Hm & Hq & Hc).
    exists (length qs + m)%nat, q. split; [lia|]. split; [|done].
    rewrite lookup_app_r by lia. by replace (length qs + m - length qs)%nat with m by lia.
Qed.

Lemma setsFirst_queriesOf k o : setsFirst (queriesOf E k o).
Proof.
  destruct (queriesOf_shape k o) as [-> | (t & ins & more & -> & Hc & Hnone & Hlen)].
  { by intros n v Hn. }
  intros n v Hn. exists 0%nat, ins.
  destruct n as [|n].
  { simpl in Hn. injection Hn as ->. simpl in Hnone. done. }
  split; [lia|]. split; [done|].
  simpl in Hn. apply lookup_app_Some in Hn as [Hn | [_ Hn]].
  - assert (In v (upsertsOf (ins :: more))) as Hin.
    { apply In_upsertsOf. right. apply list_elem_of_In. by eapply list_elem_of_lookup_2. }
    by rewrite Hnone in Hin.
  - destruct (n - length more)%nat; [|done]. simpl in Hn. by injection Hn as <-.
Qed.

Lemma setsFirst_loop k orders : setsFirst (loop E k orders []).
Proof.
  revert k. induction orders as [|o orders IH]; intros k.
  - by intros n v Hn.
  - rewrite loop_cons. apply setsFirst_app; [apply setsFirst_queriesOf | apply IH].
Qed.

Lemma loop_nil k orders :
  (forall i o, orders !! i = Some o -> queriesOf E (k + i) o = []) ->
  loop E k orders [] = [].
Proof.
  revert k. induction orders as [|o orders IH]; intros k Hnone; [done|].
  rewrite loop_cons. rewrite <- (Nat.add_0_r k) at 1.
  rewrite (Hnone 0%nat o eq_refl). simpl. apply IH.
  intros i o' Hi. replace (S k + i)%nat with (k + S i)%nat by lia. by apply Hnone.
Qed.

Lemma saveOrders_batch orders qs :
  In (DbNone qs) (saveOrders E orders) -> qs = loop E 0 orders [] /\ qs <> [].
Proof.
  unfold saveOrders. destruct orders as [|o orders]; [done|].
  destruct (loop E 0 (o :: orders) []) as [|q qs'] eqn:Hl; simpl.
  - by intros [? | []].
  - intros [[= <-] | [? | []]]; done.
Qed.


(** X15: on a batch of orders that is not empty, [saveOrders] ends with
    the update queue being given the hash of every order of the batch, in
    order, whether or not the order produced a row. Before that it calls
    [db.none] at most once, never with an empty list of queries, and the
    rows it writes are rows of orders of the batch, in the order of the
    batch, at most one for each order. *)
Theorem saveOrders_calls orders :
  orders <> [] ->
  exists before,
    saveOrders E orders
    = before ++ [AddToOrdersUpdateByHashQueue (map prefixHash orders)]
    /\ (before = []
        \/ exists qs, before = [DbNone qs] /\ qs <> []
             /\ sublist (map hash (upsertsOf qs)) (map prefixHash orders)).
Proof.
  intros Hne. unfold saveOrders. destruct orders as [|o orders']; [done|].
  set (orders := o :: orders').
  destruct (loop E 0 orders []) as [|q qs] eqn:Hl.
  - exists []. split; [done|]. by left.
  - exists [DbNone (q :: qs)]. split; [done|]. right.
    exists (q :: qs). split; [done|]. split; [done|].
    rewrite <- Hl. apply loop_sublist.
Qed.

(** X16: in the queries [saveOrders] hands to [db.none], every insert
    into "orders" comes after an insert into "token_sets" that creates the
    token set the order refers to. *)
Theorem token_set_created_before_order orders qs n v :
  In (DbNone qs) (saveOrders E orders) ->
  qs !! n = Some (UpsertOrder v) ->
  exists m q, (m < n)%nat /\ qs !! m = Some q
              /\ createsTokenSet q = Some (tokenSetId v).
Proof.
  intros Hin Hn. apply saveOrders_batch in Hin as [-> _].
  by apply (setsFirst_loop 0 orders).
Qed.

(** X17: every row [saveOrders] writes names its source as OpenSea with
    250 basis points, LootExchange with none, or unknown with the whole
    fee of the order, by its fee recipient. When royalties are recorded
    they are one entry of more than zero basis points, and the share of
    the source and the royalties add up to the larger of the two relayer
    fees of the order; an order of an unknown source never records
    royalties. *)
Theorem stored_fees_add_up orders qs v :
  In (DbNone qs) (saveOrders E orders) ->
  In (UpsertOrder v) qs ->
  let fee := Z.max (makerRelayerFee (rawData v)) (takerRelayerFee (rawData v)) in
  (sourceInfo v = mkSourceInfo "opensea" 250
   \/ sourceInfo v = mkSourceInfo "lootexchange" 0
   \/ (sourceInfo v = mkSourceInfo "unknown" fee /\ royaltyInfo v = None))
  /\ forall l, royaltyInfo v = Some l ->
       exists r b, l = [mkRoyaltyInfo r b] /\ 0 < b
                   /\ sourceBps (sourceInfo v) + b = fee.
Proof.
  intros Hin Hv fee. apply saveOrders_batch in Hin as [-> _].
  apply loop_upsert in Hv as (i & o & t & _ & ->). simpl.
  subst fee. simpl. fold (feeBpsOf (params o)).
  split.
  - unfold royaltyInfoOf, sourceInfoOf.
    destruct (String.eqb _ "0x5b3256965e7c3cf26e11fcaf296dfc8807c01073"); [by left|].
    destruct (_ || _); [by right; left|]. right. right. split; [done|].
    destruct (findRoyalty E _ _); [|done]. simpl.
    by replace (feeBpsOf (params o) - feeBpsOf (params o)) with 0 by lia.
  - intros l. unfold royaltyInfoOf.
    destruct (findRoyalty E _ _) as [r|]; [|done]. simpl.
    destruct (Z.ltb_spec 0 (feeBpsOf (params o) - sourceBps (sourceInfoOf (params o))));
      [|done].
    intros [= <-]. eexists _, _. split; [done|]. split; [done|]. lia.
Qed.

(** X18: every row [saveOrders] writes is a "buy" exactly when the side
    of the order is 0, and a "sell" otherwise. The value of a sell is its
    price. The value of a buy is its price less the taker fee, in basis
    points of the price and rounded down: for a price that is not negative
    and a taker fee between 0 and 10000 it lies between 0 and the price.
    The row never expires exactly when the expiration time is 0. *)
Theorem stored_value orders qs v :
  In (DbNone qs) (saveOrders E orders) ->
  In (UpsertOrder v) qs ->
  let p := rawData v in
  price v = basePrice p
  /\ (side p <> 0 -> orderSide v = Sell /\ value v = price v)
  /\ (side p = 0 ->
      orderSide v = Buy
      /\ value v = price v - Z.quot (price v * takerRelayerFee p) 10000
      /\ (0 <= price v -> 0 <= takerRelayerFee p <= 10000 ->
          0 <= value v <= price v))
  /\ (orderExpirationTime v = Infinity <-> expirationTime p = 0).
Proof.
  intros Hin Hv p. apply saveOrders_batch in Hin as [-> _].
  apply loop_upsert in Hv as (i & o & t & _ & ->). subst p. simpl.
  unfold valueOf, sideOf.
  split; [done|]. split; [|split].
  - intros Hside. apply Z.eqb_neq in Hside. by rewrite Hside.
  - intros Hside. rewrite Hside. simpl. split; [done|]. split; [done|].
    intros Hp Hfee.
    rewrite Z.quot_div_nonneg by nia.
    assert (0 <= basePrice (params o) * takerRelayerFee (params o) / 10000).
    { apply Z.div_pos; nia. }
    assert (basePrice (params o) * takerRelayerFee (params o) / 10000
            <= basePrice (params o)).
    { apply Z.div_le_upper_bound; nia. }
    lia.
  - destruct (Z.eqb_spec (expirationTime (params o)) 0); split; done.
Qed.

(** X19: orders that [saveOrders] cannot match to a token set (a kind it
    does not know, or a collection order for which the database has no
    collection) leave the database untouched: when a batch that is not
    empty has only such orders, the one call is the update queue, with
    the hash of every order. *)
Theorem unmatched_orders_are_only_queued orders :
  orders <> [] ->
  (forall i o, orders !! i = Some o ->
     match extractOrderInfo E o with
     | None => True
     | Some (Token _) => False
     | Some (CollectionRange range) =>
         findCollection E i (target (params o)) (Some range) = None
     | Some CollectionWide =>
         findCollection E i (target (params o)) None = None
     end) ->
  saveOrders E orders = [AddToOrdersUpdateByHashQueue (map prefixHash orders)].
Proof.
  intros Hne Hun. unfold saveOrders. destruct orders as [|o orders']; [done|].
  rewrite loop_nil; [done|].
  intros i o' Hi. specialize (Hun i o' Hi). simpl. unfold queriesOf.
  destruct (extractOrderInfo E o') as [[tokenId | range | ]|]; try done;
    unfold tokenSetOf; by rewrite Hun.
Qed.

End SaveOrders.

Import Orders.

Lemma saveOrders_calls_witness :
  saveOrders OrderSample.env [OrderSample.unknown; OrderSample.offer]
  = [DbNone
       [InsertTokenSetOfToken "token:0xc0:7" "0xc0" "7" "token-label" "h1";
        InsertTokenSetTokensOfToken "token:0xc0:7" "0xc0" "7";
        UpsertOrder (orderValues OrderSample.env 1 OrderSample.offer
                       (mkTokenSetInfo "token:0xc0:7" "token-label" "h1"))];
     AddToOrdersUpdateByHashQueue ["0xhash3"; "0xhash1"]]
  /\ exists before,
       saveOrders OrderSample.env [OrderSample.unknown; OrderSample.offer]
       = before ++ [AddToOrdersUpdateByHashQueue
                      (map prefixHash [OrderSample.unknown; OrderSample.offer])]
       /\ (before = []
           \/ exists qs, before = [DbNone qs] /\ qs <> []
                /\ sublist (map hash (upsertsOf qs))
                     (map prefixHash [OrderSample.unknown; OrderSample.offer])).
Proof.
  split; [reflexivity|].
  apply (saveOrders_calls OrderSample.env [OrderSample.unknown; OrderSample.offer]).
  discriminate.
Defined.

Lemma token_set_created_before_order_witness :
  exists m q,
    (m < 2)%nat
    /\ [InsertTokenSetOfToken "token:0xc0:7" "0xc0" "7" "token-label" "h1";
        InsertTokenSetTokensOfToken "token:0xc0:7" "0xc0" "7";
        UpsertOrder (orderValues OrderSample.env 0 OrderSample.offer
                       (mkTokenSetInfo "token:0xc0:7" "token-label" "h1"))] !! m
       = Some q
    /\ createsTokenSet q = Some "token:0xc0:7".
Proof.
  apply (token_set_created_before_order OrderSample.env [OrderSample.offer] _ 2%nat
           (orderValues OrderSample.env 0 OrderSample.offer
              (mkTokenSetInfo "token:0xc0:7" "token-label" "h1"))).
  - left. reflexivity.
  - reflexivity.
Defined.

Lemma stored_fees_add_up_witness :
  let v := orderValues OrderSample.env 0 OrderSample.offer
             (mkTokenSetInfo "token:0xc0:7" "token-label" "h1") in
  sourceInfo v = mkSourceInfo "opensea" 250
  /\ royaltyInfo v = Some [mkRoyaltyInfo (Some "0xartist") 500]
  /\ exists r b, [mkRoyaltyInfo (Some "0xartist") 500] = [mkRoyaltyInfo r b]
                 /\ 0 < b /\ 250 + b = 750.
Proof.
  split; [reflexivity|]. split; [reflexivity|].
  destruct (stored_fees_add_up OrderSample.env [OrderSample.offer]
              (loop OrderSample.env 0 [OrderSample.offer] [])
              (orderValues OrderSample.env 0 OrderSample.offer
                 (mkTokenSetInfo "token:0xc0:7" "token-label" "h1")))
    as [_ Hroyalty].
  - left. reflexivity.
  - right. right. left. reflexivity.
  - exact (Hroyalty [mkRoyaltyInfo (Some "0xartist") 500] eq_refl).
Defined.

Lemma stored_value_witness :
  let v := orderValues OrderSample.env 0 OrderSample.offer
             (mkTokenSetInfo "token:0xc0:7" "token-label" "h1") in
  value v = 925 /\ 0 <= value v <= price v.
Proof.
  split; [reflexivity|].
  destruct (stored_value OrderSample.env [OrderSample.offer]
              (loop OrderSample.env 0 [OrderSample.offer] [])
              (orderValues OrderSample.env 0 OrderSample.offer
                 (mkTokenSetInfo "token:0xc0:7" "token-label" "h1")))
    as (_ & _ & Hbuy & _).
  - left. reflexivity.
  - right. right. left. reflexivity.
  - destruct (Hbuy eq_refl) as (_ & _ & Hbounds).
    apply Hbounds; [discriminate | split; discriminate].
Defined.

Lemma unmatched_orders_are_only_queued_witness :
  saveOrders OrderSample.env [OrderSample.unknown; OrderSample.unmatched]
  = [AddToOrdersUpdateByHashQueue ["0xhash3"; "0xhash2"]].
Proof.
  apply (unmatched_orders_are_only_queued OrderSample.env
           [OrderSample.unknown; OrderSample.unmatched]).
  - discriminate.
  - intros [|[|i]] o [= <-]; reflexivity.
Defined.

(** * Lock names *)

Lemma string_app_inv_head (s a b : string) :
  (s ++ a)%string = (s ++ b)%string -> a = b.
Proof.
  induction s as [|c s IH]; simpl; [done|]. intros [= H]. by apply IH.
Qed.

(** X20: two methods never share a lock: [getLockName] gives different
    names to different methods, and every name starts with the name of
    the queue. *)
Theorem getLockName_injective (method1 method2 : string) :
  (getLockName method1 = getLockName method2 -> method1 = method2)
  /\ String.prefix QUEUE_NAME (getLockName method1) = true.
Proof.
  split.
  - unfold getLockName. intros H.
    apply string_app_inv_head in H. by apply (string_app_inv_head ":") in H.
  - unfold getLockName. generalize QUEUE_NAME. intros q.
    induction q as [|c q IH]; simpl.
    + by destruct (":" ++ method1)%string.
    + destruct (Ascii.ascii_dec c c); [exact IH | done].
Qed.
